(** * Checked integer primitives (include/checked_integer.hpp)

    A shallow embedding of the layer-0 checked operations on the native
    C++ integer types, and the properties of the specification proved or
    refuted over it.

    Integer values are mathematical integers [Z] paired, in every
    function, with the C++ type they have in the source.  The built-in
    operators are embedded with the integral promotions, the usual
    arithmetic conversions and the two's complement wrap-around written
    out; an operator application whose behaviour the language leaves
    undefined (signed overflow, division by zero, [min / -1], an
    out-of-range shift count) yields [None]. *)

From Stdlib Require Import ZArith Bool String Lia.

Local Open Scope string_scope.
Local Open Scope Z_scope.

(** ** The native integer types *)

(** The fixed-width integer types of an LP64 platform: [int] is [I32],
    [std::intmax_t] is [I64] and [std::uintmax_t] is [U64]. *)
Inductive itype : Set :=
  | I8 | U8 | I16 | U16 | I32 | U32 | I64 | U64.

(** [std::is_signed<T>] *)
Definition is_signed (T : itype) : bool :=
  match T with
  | I8 | I16 | I32 | I64 => true
  | U8 | U16 | U32 | U64 => false
  end.

(** [sizeof(T)], in bytes *)
Definition sizeof (T : itype) : Z :=
  match T with
  | I8 | U8 => 1
  | I16 | U16 => 2
  | I32 | U32 => 4
  | I64 | U64 => 8
  end.

(** width of the object representation, in bits *)
Definition width (T : itype) : Z := 8 * sizeof T.

(** [std::make_unsigned<T>::type] *)
Definition make_unsigned (T : itype) : itype :=
  match T with
  | I8 | U8 => U8
  | I16 | U16 => U16
  | I32 | U32 => U32
  | I64 | U64 => U64
  end.

Definition intmax_t : itype := I64.
Definition uintmax_t : itype := U64.

(** [std::numeric_limits<T>] *)
Module numeric_limits.

(** number of value bits: the sign bit does not count *)
Definition digits (T : itype) : Z :=
  if is_signed T then width T - 1 else width T.

Definition max (T : itype) : Z := 2 ^ digits T - 1.

Definition min (T : itype) : Z :=
  if is_signed T then - 2 ^ digits T else 0.

End numeric_limits.

(** [z] is a value of type [T] *)
Definition in_range (T : itype) (z : Z) : Prop :=
  numeric_limits.min T <= z <= numeric_limits.max T.

Definition in_rangeb (T : itype) (z : Z) : bool :=
  (numeric_limits.min T <=? z) && (z <=? numeric_limits.max T).

(** [static_cast<T>(z)]: conversion to an integer type keeps the value
    when [T] can represent it and otherwise reduces it modulo
    [2 ^ width T] (two's complement). *)
Definition static_cast (T : itype) (z : Z) : Z :=
  if is_signed T
  then (z + 2 ^ (width T - 1)) mod 2 ^ width T - 2 ^ (width T - 1)
  else z mod 2 ^ width T.

(** ** The built-in operators *)

Definition bind {A B : Type} (m : option A) (k : A -> option B) : option B :=
  match m with
  | Some a => k a
  | None => None
  end.

Definition ret {A : Type} (a : A) : option A := Some a.

Declare Scope undef_scope.
Delimit Scope undef_scope with undef.
Notation "x <- m ;; k" := (bind m (fun x => k))
  (at level 61, m at next level, right associativity) : undef_scope.
Local Open Scope undef_scope.

Module Native.

(** integral promotion: every type narrower than [int] becomes [int] *)
Definition promote (T : itype) : itype :=
  if sizeof T <? sizeof I32 then I32 else T.

(** the usual arithmetic conversions: the type in which a binary
    operator with operands of types [T] and [U] is evaluated *)
Definition common_type (T U : itype) : itype :=
  let T' := promote T in
  let U' := promote U in
  if Bool.eqb (is_signed T') (is_signed U')
  then (if sizeof T' <? sizeof U' then U' else T')
  else if is_signed T'
       then (if sizeof T' <=? sizeof U' then U' else T')
       else (if sizeof U' <=? sizeof T' then T' else U').

(** the result of an arithmetic operator evaluated in type [C]:
    unsigned arithmetic is modular, signed overflow is undefined *)
Definition result (C : itype) (z : Z) : option Z :=
  if is_signed C
  then (if in_rangeb C z then Some z else None)
  else Some (static_cast C z).

Definition arith (f : Z -> Z -> Z) (T U : itype) (t u : Z) : option Z :=
  let C := common_type T U in
  result C (f (static_cast C t) (static_cast C u)).

(** [t + u], [t - u], [t * u] *)
Definition add := arith Z.add.
Definition sub := arith Z.sub.
Definition mul := arith Z.mul.

(** [-t] *)
Definition neg (T : itype) (t : Z) : option Z :=
  let C := promote T in
  result C (- static_cast C t).

(** the operand pairs at which the division instruction faults *)
Definition div_traps (C : itype) (a b : Z) : bool :=
  (b =? 0) || (is_signed C && (a =? numeric_limits.min C) && (b =? -1)).

(** [t / u], truncating toward zero *)
Definition div (T U : itype) (t u : Z) : option Z :=
  let C := common_type T U in
  let a := static_cast C t in
  let b := static_cast C u in
  if div_traps C a b then None else Some (Z.quot a b).

(** [t % u], with the sign of the dividend *)
Definition rem (T U : itype) (t u : Z) : option Z :=
  let C := common_type T U in
  let a := static_cast C t in
  let b := static_cast C u in
  if div_traps C a b then None else Some (Z.rem a b).

(** [t << u]: evaluated in the promoted type of the left operand; the
    count must be less than its width; a signed left operand must be
    non-negative and the shifted value must fit the corresponding
    unsigned type *)
Definition shl (T U : itype) (t u : Z) : option Z :=
  let P := promote T in
  let a := static_cast P t in
  let n := static_cast (promote U) u in
  if (n <? 0) || (width P <=? n) then None
  else if is_signed P
       then (if (a <? 0) || (2 ^ width P <=? a * 2 ^ n) then None
             else Some (static_cast P (a * 2 ^ n)))
       else Some (static_cast P (a * 2 ^ n)).

(** [t >> u]: the integral part of the quotient by [2 ^ u] (arithmetic
    shift for a negative left operand) *)
Definition shr (T U : itype) (t u : Z) : option Z :=
  let P := promote T in
  let a := static_cast P t in
  let n := static_cast (promote U) u in
  if (n <? 0) || (width P <=? n) then None
  else Some (Z.shiftr a n).

(** [t | u], [t ^ u], [t & u] on the two's complement bit patterns *)
Definition bitop (f : Z -> Z -> Z) (T U : itype) (t u : Z) : Z :=
  let C := common_type T U in
  static_cast C (f (static_cast C t) (static_cast C u)).

Definition bit_or := bitop Z.lor.
Definition bit_xor := bitop Z.lxor.
Definition bit_and := bitop Z.land.

(** comparisons, evaluated in the common type of the operands *)
Definition compare (f : Z -> Z -> bool) (T U : itype) (t u : Z) : bool :=
  let C := common_type T U in
  f (static_cast C t) (static_cast C u).

Definition lt := compare Z.ltb.
Definition gt := compare Z.gtb.
Definition eq := compare Z.eqb.
Definition ne := compare (fun a b => negb (a =? b)).
Definition ge := compare Z.geb.

End Native.

(** ** Collaborators declared in other headers *)

(** Modelled from the spec: [safe_compare.hpp] is not part of the
    sources.  Specification 4.2: [less_than], [greater_than] and [equal]
    "return the mathematically correct boolean over the integers". *)
Module safe_compare.

Definition less_than (a b : Z) : bool := a <? b.
Definition greater_than (a b : Z) : bool := a >? b.
Definition equal (a b : Z) : bool := a =? b.

End safe_compare.

(** Modelled from the spec: [utility.hpp] is not part of the sources.
    Specification 4.1: [significant_bits(x)] is "the position of the
    highest set bit in the absolute value of x, i.e. floor(log2(|x|)) + 1
    for x <> 0, and 0 for x == 0"; [bits_of<T>] is the "fixed width of a
    type".  The checked operations store the result of
    [significant_bits] in an [unsigned int]
    ([const unsigned int result_size = std::max(...)]), which is the type
    it has here. *)
Module utility.

Definition significant_bits (x : Z) : Z :=
  if x =? 0 then 0 else Z.log2 (Z.abs x) + 1.

Definition significant_bits_type : itype := U32.

Definition bits_type (T : itype) : Z := width T.

End utility.

(** Modelled from the spec: [exception.hpp] is not part of the sources.
    Specification section 3: [ErrorKind] is "a closed enumeration of
    diagnostic categories", listed there under the names that the
    sources use for [safe_numerics_error]. *)
Inductive safe_numerics_error : Set :=
  | positive_overflow_error
  | negative_overflow_error
  | range_error
  | domain_error
  | undefined_behavior
  | implementation_defined_behavior.

(** Modelled from the spec: [checked_result.hpp] is not part of the
    sources.  Specification section 3: a [CheckedResult<T>] is "a value
    of exactly one variant: Ok(v: T), or Err(kind: ErrorKind, message:
    string)". *)
Inductive checked_result : Set :=
  | Ok (v : Z)
  | Err (kind : safe_numerics_error) (message : string).

Definition exception (r : checked_result) : bool :=
  match r with
  | Ok _ => false
  | Err _ _ => true
  end.

(** ** Layer 0: safe casting on primitive types
    ([checked_unary_operation<R, T>]) *)

Module cast_impl_detail.

(** the four overloads of [cast_impl], selected by the tags
    [std::is_signed<R>()] and [std::is_signed<T>()] *)
Definition cast_impl (R : itype) (t : Z) (r_signed t_signed : bool)
  : checked_result :=
  match r_signed, t_signed with
  | true, true =>
      if safe_compare.greater_than t (numeric_limits.max R)
      then Err positive_overflow_error "converted signed value too large"
      else if safe_compare.less_than t (numeric_limits.min R)
      then Err negative_overflow_error "converted signed value too small"
      else Ok (static_cast R t)
  | true, false =>
      if safe_compare.greater_than t (numeric_limits.max R)
      then Err positive_overflow_error "converted unsigned value too large"
      else Ok (static_cast R t)
  | false, false =>
      if safe_compare.greater_than t (numeric_limits.max R)
      then Err positive_overflow_error "converted unsigned value too large"
      else Ok (static_cast R t)
  | false, true =>
      if safe_compare.less_than t 0
      then Err domain_error "converted negative value to unsigned"
      else if safe_compare.greater_than t (numeric_limits.max R)
      then Err positive_overflow_error "converted signed value too large"
      else Ok (static_cast R t)
  end.

End cast_impl_detail.

(** [checked::cast<R>(t)] for [t] of type [T] *)
Definition cast (R T : itype) (t : Z) : checked_result :=
  cast_impl_detail.cast_impl R t (is_signed R) (is_signed T).

(** ** Layer 0: the binary operations
    ([checked_binary_operation<R, T, U>]) *)

(** safe addition *)
Module add_impl_detail.

Definition add (R : itype) (t u : Z) (r_signed : bool)
  : option checked_result :=
  if r_signed
  then
    too_large <-
      (if Native.gt R I32 u 0
       then d <- Native.sub R R (numeric_limits.max R) u ;;
            ret (Native.gt R (Native.common_type R R) t d)
       else ret false) ;;
    if too_large
    then ret (Err positive_overflow_error "addition result too large")
    else
      too_low <-
        (if Native.lt R I32 u 0
         then d <- Native.sub R R (numeric_limits.min R) u ;;
              ret (Native.lt R (Native.common_type R R) t d)
         else ret false) ;;
      if too_low
      then ret (Err negative_overflow_error "addition result too low")
      else s <- Native.add R R t u ;; ret (Ok (static_cast R s))
  else
    d <- Native.sub R R (numeric_limits.max R) u ;;
    if Native.lt (Native.common_type R R) R d t
    then ret (Err positive_overflow_error "addition result too large")
    else s <- Native.add R R t u ;; ret (Ok (static_cast R s)).

End add_impl_detail.

Definition add (R T U : itype) (t u : Z) : option checked_result :=
  match cast R T t with
  | Err k m => ret (Err k m)
  | Ok rt =>
      match cast R U u with
      | Err k m => ret (Err k m)
      | Ok ru => add_impl_detail.add R rt ru (is_signed R)
      end
  end.

(** safe subtraction *)
Module subtract_impl_detail.

Definition subtract (R : itype) (t u : Z) (r_signed : bool)
  : option checked_result :=
  if r_signed
  then
    c1 <-
      (if Native.gt R I32 u 0
       then d <- Native.add R R (numeric_limits.min R) u ;;
            ret (Native.lt R (Native.common_type R R) t d)
       else ret false) ;;
    if c1
    then ret (Err positive_overflow_error
                "subtraction result overflows result type")
    else
      c2 <-
        (if Native.lt R I32 u 0
         then d <- Native.add R R (numeric_limits.max R) u ;;
              ret (Native.gt R (Native.common_type R R) t d)
         else ret false) ;;
      if c2
      then ret (Err negative_overflow_error
                  "subtraction result overflows result type")
      else s <- Native.sub R R t u ;; ret (Ok (static_cast R s))
  else
    if Native.lt R R t u
    then ret (Err range_error "subtraction result cannot be negative")
    else s <- Native.sub R R t u ;; ret (Ok (static_cast R s)).

End subtract_impl_detail.

(** the source hands the operands themselves, not the cast results, to
    [subtract_impl_detail::subtract], whose parameters have type [R] *)
Definition subtract (R T U : itype) (t u : Z) : option checked_result :=
  match cast R T t with
  | Err k m => ret (Err k m)
  | Ok _ =>
      match cast R U u with
      | Err k m => ret (Err k m)
      | Ok _ =>
          subtract_impl_detail.subtract
            R (static_cast R t) (static_cast R u) (is_signed R)
      end
  end.

(** safe multiplication *)
Module multiply_impl_detail.

(** the four overloads of [multiply]; [narrow] is the tag
    [sizeof(R) > sizeof(std::uintmax_t) / 2] *)
Definition multiply (R : itype) (t u : Z) (r_signed narrow : bool)
  : option checked_result :=
  match r_signed, narrow with
  | false, false =>
      let i_type := uintmax_t in
      p <- Native.mul i_type i_type
             (static_cast i_type t) (static_cast i_type u) ;;
      if Native.gt i_type R p (numeric_limits.max R)
      then ret (Err positive_overflow_error "multiplication overflow")
      else s <- Native.mul R R t u ;; ret (Ok (static_cast R s))
  | false, true =>
      c <-
        (if Native.gt R I32 u 0
         then q <- Native.div R R (numeric_limits.max R) u ;;
              ret (Native.gt R (Native.common_type R R) t q)
         else ret false) ;;
      if c
      then ret (Err positive_overflow_error "multiplication overflow")
      else s <- Native.mul R R t u ;; ret (Ok (static_cast R s))
  | true, false =>
      let i_type := intmax_t in
      p <- Native.mul i_type i_type
             (static_cast i_type t) (static_cast i_type u) ;;
      if Native.gt i_type i_type p
           (static_cast i_type (numeric_limits.max R))
      then ret (Err positive_overflow_error "multiplication overflow")
      else
        p' <- Native.mul i_type i_type
                (static_cast i_type t) (static_cast i_type u) ;;
        if Native.lt i_type i_type p'
             (static_cast i_type (numeric_limits.min R))
        then ret (Err negative_overflow_error "multiplication overflow")
        else s <- Native.mul R R t u ;; ret (Ok (static_cast R s))
  | true, true =>
      let C := Native.common_type R R in
      if Native.gt R I32 t 0
      then
        if Native.gt R I32 u 0
        then
          q <- Native.div R R (numeric_limits.max R) u ;;
          if Native.gt R C t q
          then ret (Err positive_overflow_error "multiplication overflow")
          else s <- Native.mul R R t u ;; ret (Ok (static_cast R s))
        else
          q <- Native.div R R (numeric_limits.min R) t ;;
          if Native.lt R C u q
          then ret (Err negative_overflow_error "multiplication overflow")
          else s <- Native.mul R R t u ;; ret (Ok (static_cast R s))
      else
        if Native.gt R I32 u 0
        then
          q <- Native.div R R (numeric_limits.min R) u ;;
          if Native.lt R C t q
          then ret (Err negative_overflow_error "multiplication overflow")
          else s <- Native.mul R R t u ;; ret (Ok (static_cast R s))
        else
          c <-
            (if Native.ne R I32 t 0
             then q <- Native.div R R (numeric_limits.max R) t ;;
                  ret (Native.lt R C u q)
             else ret false) ;;
          if c
          then ret (Err positive_overflow_error "multiplication overflow")
          else s <- Native.mul R R t u ;; ret (Ok (static_cast R s))
  end.

End multiply_impl_detail.

(** as in [subtract], the operands themselves are handed on *)
Definition multiply (R T U : itype) (t u : Z) : option checked_result :=
  match cast R T t with
  | Err k m => ret (Err k m)
  | Ok _ =>
      match cast R U u with
      | Err k m => ret (Err k m)
      | Ok _ =>
          multiply_impl_detail.multiply
            R (static_cast R t) (static_cast R u)
            (is_signed R) (sizeof R >? sizeof uintmax_t / 2)
      end
  end.

(** safe division *)
Module divide_impl_detail.

Definition divide (R : itype) (t u : Z) (r_signed : bool)
  : option checked_result :=
  if r_signed
  then
    if Native.eq R I32 u (-1) && Native.eq R R t (numeric_limits.min R)
    then ret (Err range_error "result cannot be represented")
    else q <- Native.div R R t u ;; ret (Ok (static_cast R q))
  else
    q <- Native.div R R t u ;; ret (Ok (static_cast R q)).

End divide_impl_detail.

Definition divide (R T U : itype) (t u : Z) : option checked_result :=
  if Native.eq U I32 u 0
  then ret (Err domain_error "divide by zero")
  else
    match cast R T t, cast R U u with
    | Ok tx, Ok ux => divide_impl_detail.divide R tx ux (is_signed R)
    | _, _ => ret (Err domain_error "failure converting argument types")
    end.

(** safe modulus *)

(** [abs<Tx>(t)], of return type [std::make_unsigned_t<Tx>]; the
    conditional expression has the promoted type of [Tx] *)
Definition abs (Tx : itype) (t : Z) : option Z :=
  v <-
    (if Native.lt Tx I32 t 0 && Native.ne Tx Tx t (numeric_limits.min Tx)
     then Native.neg Tx t
     else ret (static_cast (Native.promote Tx) t)) ;;
  ret (static_cast (make_unsigned Tx) v).

Definition modulus (R T U : itype) (t u : Z) : option checked_result :=
  if Native.eq I32 U 0 u
  then ret (Err domain_error "denominator is zero")
  else
    a <- abs U u ;;
    r <- Native.rem T (make_unsigned U) t a ;;
    ret (Ok (static_cast R r)).

(** ** Shift operations *)

(** the checks that [left_shift] makes before it dispatches on the
    signedness of [T]; [dispatch] is the result of the overload selected *)
Definition left_shift_frame (dispatch : option checked_result)
    (R T U : itype) (t u : Z) : option checked_result :=
  if Native.eq U I32 u 0
  then ret (Ok (static_cast R t))
  else if Native.lt U I32 u 0
  then ret (Err implementation_defined_behavior
              "shifting negative amount is implementation defined behavior")
  else if Native.gt U I32 u (numeric_limits.digits R)
  then ret (Err implementation_defined_behavior
              "shifting more bits than available is implementation defined behavior")
  else if Native.eq T I32 t 0
  then ret (cast R T t)
  else dispatch.

Module left_shift_integer_detail.

(** overload for unsigned [T] *)
Definition left_shift_unsigned (R T U : itype) (t u : Z)
  : option checked_result :=
  d <- Native.sub I32 utility.significant_bits_type
         (numeric_limits.digits R) (utility.significant_bits t) ;;
  if safe_compare.greater_than u d
  then ret (Err undefined_behavior
              "shifting left more bits than available is undefined behavior")
  else s <- Native.shl T U t u ;; ret (Ok (static_cast R s)).

(** overload for signed [T]: a non-negative [t] goes back to
    [checked::left_shift<R>] at the type [make_unsigned<T>], where the
    dispatch selects the overload for unsigned types *)
Definition left_shift_signed (R T U : itype) (t u : Z)
  : option checked_result :=
  if Native.ge T I32 t 0
  then
    let T' := make_unsigned T in
    let t' := static_cast T' t in
    left_shift_frame (left_shift_unsigned R T' U t' u) R T' U t' u
  else ret (Err undefined_behavior
              "shifting a negative value is undefined behavior").

Definition left_shift (R T U : itype) (t u : Z) (t_signed : bool)
  : option checked_result :=
  if t_signed
  then left_shift_signed R T U t u
  else left_shift_unsigned R T U t u.

End left_shift_integer_detail.

Definition left_shift (R T U : itype) (t u : Z) : option checked_result :=
  left_shift_frame
    (left_shift_integer_detail.left_shift R T U t u (is_signed T))
    R T U t u.

Module right_shift_integer_detail.

Definition right_shift (R T U : itype) (t u : Z) (t_signed : bool)
  : option checked_result :=
  if t_signed
  then
    if Native.lt T I32 t 0
    then ret (Err implementation_defined_behavior
                "shifting a negative value is implementation defined behavior")
    else s <- Native.shr T U t u ;; ret (cast R (Native.promote T) s)
  else
    s <- Native.shr T U t u ;; ret (cast R (Native.promote T) s).

End right_shift_integer_detail.

Definition right_shift (R T U : itype) (t u : Z) : option checked_result :=
  if Native.eq U I32 u 0
  then ret (Ok (static_cast R t))
  else if Native.lt U I32 u 0
  then ret (Err implementation_defined_behavior
              "shifting negative amount is implementation defined behavior")
  else if Native.gt U I32 u (numeric_limits.digits R)
  then ret (Err implementation_defined_behavior
              "shifting more bits than available is implementation defined behavior")
  else if Native.eq T I32 t 0
  then ret (cast R I32 0)
  else right_shift_integer_detail.right_shift R T U t u (is_signed T).

(** ** Bitwise operations *)

Definition bitwise_or (R T U : itype) (t u : Z) : option checked_result :=
  let result_size :=
    Z.max (utility.significant_bits t) (utility.significant_bits u) in
  if Native.gt utility.significant_bits_type I32
       result_size (utility.bits_type R)
  then ret (Err positive_overflow_error
              "result type too small to hold bitwise or")
  else ret (Ok (static_cast R (Native.bit_or T U t u))).

Definition bitwise_xor (R T U : itype) (t u : Z) : option checked_result :=
  let result_size :=
    Z.max (utility.significant_bits t) (utility.significant_bits u) in
  if Native.gt utility.significant_bits_type I32
       result_size (utility.bits_type R)
  then ret (Err positive_overflow_error
              "result type too small to hold bitwise or")
  else ret (Ok (static_cast R (Native.bit_xor T U t u))).

Definition bitwise_and (R T U : itype) (t u : Z) : option checked_result :=
  let result_size :=
    Z.min (utility.significant_bits t) (utility.significant_bits u) in
  if Native.gt utility.significant_bits_type I32
       result_size (utility.bits_type R)
  then ret (Err positive_overflow_error
              "result type too small to hold bitwise or")
  else ret (Ok (static_cast R (Native.bit_and T U t u))).


(** ** Safe comparison on unsafe types *)

(** [checked_result<bool>], the result type of the three comparisons.
    Modelled from the spec: the conversion of a [checked_result<R>] that
    holds an error to [checked_result<bool>] ([return tx;]) is declared
    in [checked_result.hpp].  Specification 4.7: the comparisons "cast
    both operands to R (propagating cast errors)". *)
Inductive checked_result_bool : Set :=
  | OkB (b : bool)
  | ErrB (kind : safe_numerics_error) (message : string).

Definition less_than (R T U : itype) (t u : Z) : checked_result_bool :=
  match cast R T t with
  | Err k m => ErrB k m
  | Ok tx =>
      match cast R U u with
      | Err k m => ErrB k m
      | Ok ux => OkB (Native.lt R R (static_cast R tx) (static_cast R ux))
      end
  end.

Definition greater_than (R T U : itype) (t u : Z) : checked_result_bool :=
  match cast R T t with
  | Err k m => ErrB k m
  | Ok tx =>
      match cast R U u with
      | Err k m => ErrB k m
      | Ok ux => OkB (Native.gt R R (static_cast R tx) (static_cast R ux))
      end
  end.

Definition equal (R T U : itype) (t u : Z) : checked_result_bool :=
  match cast R T t with
  | Err k m => ErrB k m
  | Ok tx =>
      match cast R U u with
      | Err k m => ErrB k m
      | Ok ux => OkB (Native.eq R R (static_cast R tx) (static_cast R ux))
      end
  end.

(** ** Statements about results *)

(** [r], when it is [Ok], holds exactly [z] *)
Definition exact_when_ok (r : option checked_result) (z : Z) : Prop :=
  forall v, r = Some (Ok v) -> v = z.


(** the error kind of a result, if it is an error *)
Definition error_kind (r : option checked_result)
  : option safe_numerics_error :=
  match r with
  | Some (Err k _) => Some k
  | _ => None
  end.

(** * Proof support *)

(** evaluation of the type-level constants of a concrete type *)
Ltac is_ground T :=
  match T with
  | I8 => idtac | U8 => idtac | I16 => idtac | U16 => idtac
  | I32 => idtac | U32 => idtac | I64 => idtac | U64 => idtac
  end.

Ltac eval_const e := let v := eval vm_compute in e in change e with v in *.

Ltac limits :=
  repeat match goal with
  | |- context [Native.common_type ?A ?B] =>
      is_ground A; is_ground B; eval_const (Native.common_type A B)
  | |- context [Native.promote ?A] => is_ground A; eval_const (Native.promote A)
  | |- context [make_unsigned ?A] => is_ground A; eval_const (make_unsigned A)
  | |- context [numeric_limits.max ?A] =>
      is_ground A; eval_const (numeric_limits.max A)
  | |- context [numeric_limits.min ?A] =>
      is_ground A; eval_const (numeric_limits.min A)
  | |- context [numeric_limits.digits ?A] =>
      is_ground A; eval_const (numeric_limits.digits A)
  | |- context [utility.bits_type ?A] =>
      is_ground A; eval_const (utility.bits_type A)
  | |- context [width ?A] => is_ground A; eval_const (width A)
  | |- context [sizeof ?A] => is_ground A; eval_const (sizeof A)
  | |- context [is_signed ?A] => is_ground A; eval_const (is_signed A)
  | H : context [Native.common_type ?A ?B] |- _ =>
      is_ground A; is_ground B; eval_const (Native.common_type A B)
  | H : context [Native.promote ?A] |- _ =>
      is_ground A; eval_const (Native.promote A)
  | H : context [make_unsigned ?A] |- _ =>
      is_ground A; eval_const (make_unsigned A)
  | H : context [numeric_limits.max ?A] |- _ =>
      is_ground A; eval_const (numeric_limits.max A)
  | H : context [numeric_limits.min ?A] |- _ =>
      is_ground A; eval_const (numeric_limits.min A)
  | H : context [numeric_limits.digits ?A] |- _ =>
      is_ground A; eval_const (numeric_limits.digits A)
  | H : context [width ?A] |- _ => is_ground A; eval_const (width A)
  | H : context [is_signed ?A] |- _ => is_ground A; eval_const (is_signed A)
  end.

(** bounds goals over concrete types *)
Ltac range := unfold in_range in *; limits; first [lia | nia].

(** the same, with truncating division in the goal *)
Ltac qrange :=
  unfold in_range in *; limits; Z.to_euclidean_division_equations; nia.

Ltac unfold_native :=
  unfold Native.gt, Native.lt, Native.eq, Native.ne, Native.ge,
         Native.add, Native.sub, Native.mul in *.

(** ** Conversions *)

Lemma static_cast_id T z : in_range T z -> static_cast T z = z.
Proof.
  unfold static_cast.
  destruct T; intros H; limits; cbv iota.
  all: try (apply Z.mod_small; range).
  all: rewrite Z.mod_small; range.
Qed.

Lemma static_cast_in_range T z : in_range T (static_cast T z).
Proof.
  unfold static_cast.
  destruct T; limits; cbv iota; unfold in_range; limits.
  all: match goal with
       | |- context [?a mod ?m] =>
           pose proof (Z.mod_pos_bound a m ltac:(lia)); lia
       end.
Qed.

Lemma min_nonpos T : numeric_limits.min T <= 0.
Proof. destruct T; limits; lia. Qed.

Lemma max_pos T : 0 < numeric_limits.max T.
Proof. destruct T; limits; lia. Qed.

Lemma min_unsigned T : is_signed T = false -> numeric_limits.min T = 0.
Proof. unfold numeric_limits.min. intros ->. reflexivity. Qed.

Lemma in_rangeb_true T z : in_range T z -> in_rangeb T z = true.
Proof.
  unfold in_range, in_rangeb. intros [H1 H2].
  apply andb_true_intro; split; apply Z.leb_le; assumption.
Qed.

(** ** The built-in operators on operands that the common type holds *)

Lemma result_exact C z : in_range C z -> Native.result C z = Some z.
Proof.
  intros H. unfold Native.result.
  rewrite in_rangeb_true, static_cast_id by assumption.
  destruct (is_signed C); reflexivity.
Qed.

Lemma compare_exact f T U t u :
  in_range (Native.common_type T U) t ->
  in_range (Native.common_type T U) u ->
  Native.compare f T U t u = f t u.
Proof.
  intros Ht Hu. unfold Native.compare.
  rewrite !static_cast_id by assumption. reflexivity.
Qed.

Lemma arith_exact f T U t u :
  in_range (Native.common_type T U) t ->
  in_range (Native.common_type T U) u ->
  in_range (Native.common_type T U) (f t u) ->
  Native.arith f T U t u = Some (f t u).
Proof.
  intros Ht Hu H. unfold Native.arith.
  rewrite !static_cast_id by assumption. apply result_exact, H.
Qed.

Lemma div_traps_false C a b :
  b <> 0 -> (a <> numeric_limits.min C \/ b <> -1) ->
  Native.div_traps C a b = false.
Proof.
  intros Hb Hab. unfold Native.div_traps.
  destruct (Z.eqb_spec b 0); [contradiction |].
  destruct (Z.eqb_spec a (numeric_limits.min C)), (Z.eqb_spec b (-1));
    rewrite ?andb_false_r; try reflexivity.
  lia.
Qed.

Lemma div_exact T U t u :
  in_range (Native.common_type T U) t ->
  in_range (Native.common_type T U) u ->
  u <> 0 ->
  (t <> numeric_limits.min (Native.common_type T U) \/ u <> -1) ->
  Native.div T U t u = Some (Z.quot t u).
Proof.
  intros Ht Hu H0 H1. unfold Native.div.
  rewrite !static_cast_id by assumption.
  rewrite div_traps_false by assumption. reflexivity.
Qed.

(** one step of symbolic evaluation of a function body *)
Ltac native_step :=
  match goal with
  | |- context [Native.compare ?f ?T ?U ?t ?u] =>
      rewrite (compare_exact f T U t u) by range
  | |- context [Native.arith ?f ?T ?U ?t ?u] =>
      rewrite (arith_exact f T U t u) by range
  | |- context [static_cast ?T ?z] =>
      rewrite (static_cast_id T z) by range
  | |- context [bind (Some ?a) ?k] => cbv beta iota delta [bind ret]
  | |- context [ret ?a] => cbv beta iota delta [bind ret]
  | |- context [if ?a >? ?b then _ else _] => destruct (Z.gtb_spec a b)
  | |- context [if ?a <? ?b then _ else _] => destruct (Z.ltb_spec a b)
  | |- context [if ?a =? ?b then _ else _] => destruct (Z.eqb_spec a b)
  | |- context [if ?a >=? ?b then _ else _] => destruct (Z.geb_spec a b)
  end.

Ltac div_step :=
  match goal with
  | |- context [Native.div ?T ?U ?t ?u] =>
      rewrite (div_exact T U t u) by (first [range | limits; lia])
  | |- context [Native.compare ?f ?T ?U ?t ?u] =>
      rewrite (compare_exact f T U t u) by (first [range | qrange])
  | |- context [Native.arith ?f ?T ?U ?t ?u] =>
      rewrite (arith_exact f T U t u) by (first [range | qrange])
  | |- context [static_cast ?T ?z] =>
      rewrite (static_cast_id T z) by (first [range | qrange])
  | |- context [bind (Some ?a) ?k] => cbv beta iota delta [bind ret]
  | |- context [ret ?a] => cbv beta iota delta [bind ret]
  | |- context [if ?a >? ?b then _ else _] => destruct (Z.gtb_spec a b)
  | |- context [if ?a <? ?b then _ else _] => destruct (Z.ltb_spec a b)
  | |- context [if negb (?a =? ?b) then _ else _] =>
      destruct (Z.eqb_spec a b); cbv [negb]
  | |- context [if ?a =? ?b then _ else _] => destruct (Z.eqb_spec a b)
  end.

(** ** [cast] *)

Lemma cast_in_range R T t :
  in_range T t -> in_range R t -> cast R T t = Ok t.
Proof.
  intros HT [Hlo Hhi].
  assert (H0 : is_signed R = false -> 0 <= t).
  { intros E. rewrite (min_unsigned R E) in Hlo. exact Hlo. }
  unfold cast, cast_impl_detail.cast_impl, safe_compare.greater_than,
    safe_compare.less_than.
  rewrite static_cast_id by (split; assumption).
  destruct (is_signed R), (is_signed T);
    destruct (Z.gtb_spec t (numeric_limits.max R)); try lia;
    destruct (Z.ltb_spec t (numeric_limits.min R)); try lia;
    destruct (Z.ltb_spec t 0); try reflexivity; specialize (H0 eq_refl); lia.
Qed.

Lemma cast_ok_inv R T t v :
  in_range T t -> cast R T t = Ok v -> v = t /\ in_range R t.
Proof.
  intros HT H. pose proof HT as [Hlo Hhi].
  assert (HR := min_nonpos R).
  assert (Hin : in_range R t).
  { revert H. unfold cast, cast_impl_detail.cast_impl,
      safe_compare.greater_than, safe_compare.less_than, in_range.
    destruct (is_signed R) eqn:ER, (is_signed T) eqn:ET;
      try rewrite (min_unsigned T ET) in Hlo;
      try rewrite (min_unsigned R ER);
      destruct (Z.gtb_spec t (numeric_limits.max R)); try discriminate;
      try destruct (Z.ltb_spec t (numeric_limits.min R)); try discriminate;
      try destruct (Z.ltb_spec t 0); try discriminate; lia. }
  split; [| exact Hin].
  rewrite (cast_in_range R T t HT Hin) in H.
  congruence.
Qed.

Lemma cast_err R T t :
  in_range T t -> ~ in_range R t -> exception (cast R T t) = true.
Proof.
  intros HT HR. destruct (cast R T t) as [v |] eqn:E; [| reflexivity].
  apply cast_ok_inv in E; [tauto | assumption].
Qed.

(** ** The arithmetic implementations on operands of type [R] *)

Lemma add_impl_spec R t u :
  in_range R t -> in_range R u ->
  add_impl_detail.add R t u (is_signed R) =
  Some (if t + u >? numeric_limits.max R
        then Err positive_overflow_error "addition result too large"
        else if t + u <? numeric_limits.min R
        then Err negative_overflow_error "addition result too low"
        else Ok (t + u)).
Proof.
  intros Ht Hu.
  destruct R; unfold add_impl_detail.add; unfold_native; limits; cbv iota;
    repeat native_step; try reflexivity; exfalso; range.
Qed.

(** the signed overload reports a difference below [min] as a positive
    overflow and a difference above [max] as a negative overflow *)
Lemma subtract_impl_spec R t u :
  in_range R t -> in_range R u ->
  subtract_impl_detail.subtract R t u (is_signed R) =
  Some (if is_signed R
        then (if t - u <? numeric_limits.min R
              then Err positive_overflow_error
                     "subtraction result overflows result type"
              else if t - u >? numeric_limits.max R
              then Err negative_overflow_error
                     "subtraction result overflows result type"
              else Ok (t - u))
        else (if t <? u
              then Err range_error "subtraction result cannot be negative"
              else Ok (t - u))).
Proof.
  intros Ht Hu.
  destruct R; unfold subtract_impl_detail.subtract; unfold_native; limits;
    cbv iota; repeat native_step; try reflexivity; exfalso; range.
Qed.

Lemma multiply_impl_spec R t u :
  in_range R t -> in_range R u ->
  multiply_impl_detail.multiply R t u
    (is_signed R) (sizeof R >? sizeof uintmax_t / 2) =
  Some (if t * u >? numeric_limits.max R
        then Err positive_overflow_error "multiplication overflow"
        else if t * u <? numeric_limits.min R
        then Err negative_overflow_error "multiplication overflow"
        else Ok (t * u)).
Proof.
  intros Ht Hu.
  destruct R; unfold multiply_impl_detail.multiply, uintmax_t, intmax_t;
    limits; change (8 / 2) with 4;
    match goal with
    | |- context [?a >? 4] =>
        let v := eval vm_compute in (a >? 4) in change (a >? 4) with v
    end; cbv iota; unfold_native.
  1-6: repeat native_step; try reflexivity; exfalso; range.
  all: repeat div_step; try reflexivity; exfalso; qrange.
Qed.

Lemma divide_impl_spec R t u :
  in_range R t -> in_range R u -> u <> 0 ->
  divide_impl_detail.divide R t u (is_signed R) =
  Some (if is_signed R && (u =? -1) && (t =? numeric_limits.min R)
        then Err range_error "result cannot be represented"
        else Ok (Z.quot t u)).
Proof.
  intros Ht Hu H0.
  destruct R; unfold divide_impl_detail.divide; unfold_native; limits;
    cbv iota; cbv [andb].
  all: repeat div_step; cbv [andb]; try reflexivity; exfalso; qrange.
Qed.

(** ** Operands and literals under the usual arithmetic conversions *)

Lemma in_range_common_int_l T t :
  in_range T t -> in_range (Native.common_type T I32) t.
Proof. destruct T; intros H; range. Qed.

Lemma in_range_common_int_r T t :
  in_range T t -> in_range (Native.common_type I32 T) t.
Proof. destruct T; intros H; range. Qed.

Lemma in_range_common_lit_l T c :
  0 <= c <= numeric_limits.max I32 -> in_range (Native.common_type T I32) c.
Proof. destruct T; intros H; range. Qed.

Lemma in_range_common_lit_r T c :
  0 <= c <= numeric_limits.max I32 -> in_range (Native.common_type I32 T) c.
Proof. destruct T; intros H; range. Qed.

Lemma compare_lit f T t c :
  in_range T t -> 0 <= c <= numeric_limits.max I32 ->
  Native.compare f T I32 t c = f t c.
Proof.
  intros Ht Hc. apply compare_exact.
  - apply in_range_common_int_l, Ht.
  - apply in_range_common_lit_l, Hc.
Qed.

Lemma compare_lit_r f T t c :
  in_range T t -> 0 <= c <= numeric_limits.max I32 ->
  Native.compare f I32 T c t = f c t.
Proof.
  intros Ht Hc. apply compare_exact.
  - apply in_range_common_lit_r, Hc.
  - apply in_range_common_int_r, Ht.
Qed.

(** a non-negative value survives the usual arithmetic conversions, and
    so does a negative one unless the common type is unsigned *)
Lemma in_range_common_l T U t :
  in_range T t ->
  0 <= t \/ is_signed (Native.common_type T U) = true ->
  in_range (Native.common_type T U) t.
Proof.
  destruct T, U; intros H [H0 | H0]; try discriminate H0; range.
Qed.

Lemma in_range_common_r T U u :
  in_range U u ->
  0 <= u \/ is_signed (Native.common_type T U) = true ->
  in_range (Native.common_type T U) u.
Proof.
  destruct T, U; intros H [H0 | H0]; try discriminate H0; range.
Qed.

Lemma in_range_make_unsigned T t :
  in_range T t -> 0 <= t -> in_range (make_unsigned T) t.
Proof. destruct T; intros H H0; range. Qed.

Lemma abs_in_range U u :
  in_range U u -> in_range (make_unsigned U) (Z.abs u).
Proof. destruct U; intros H; range. Qed.

Lemma min_signed_neg T : is_signed T = true -> numeric_limits.min T <= -1.
Proof. destruct T; intros H; try discriminate H; limits; lia. Qed.

(** * The checked operations *)

(** ** [add], [subtract], [multiply], [divide] *)




Lemma divide_spec R T U t u :
  in_range T t -> in_range U u ->
  divide R T U t u =
  Some (if u =? 0 then Err domain_error "divide by zero"
        else if exception (cast R T t) || exception (cast R U u)
        then Err domain_error "failure converting argument types"
        else if is_signed R && (u =? -1) && (t =? numeric_limits.min R)
        then Err range_error "result cannot be represented"
        else Ok (Z.quot t u)).
Proof.
  intros Ht Hu. unfold divide, Native.eq.
  rewrite compare_lit by (try assumption; range).
  destruct (Z.eqb_spec u 0) as [| H0]; [reflexivity |].
  destruct (cast R T t) as [rt |] eqn:Et; [| reflexivity].
  destruct (cast R U u) as [ru |] eqn:Eu; [| reflexivity].
  destruct (cast_ok_inv _ _ _ _ Ht Et) as [-> Rt].
  destruct (cast_ok_inv _ _ _ _ Hu Eu) as [-> Ru].
  rewrite divide_impl_spec by assumption. reflexivity.
Qed.


(** on operands of type [R], every signed [R] has the two overflow
    kinds of [subtract] exchanged *)
Lemma subtract_signed_spec R t u :
  is_signed R = true -> in_range R t -> in_range R u ->
  (t - u < numeric_limits.min R ->
   subtract R R R t u =
   Some (Err positive_overflow_error
           "subtraction result overflows result type")) /\
  (t - u > numeric_limits.max R ->
   subtract R R R t u =
   Some (Err negative_overflow_error
           "subtraction result overflows result type")).
Proof.
  intros ER Ht Hu. unfold subtract.
  rewrite !cast_in_range, !static_cast_id, subtract_impl_spec, ER
    by assumption.
  pose proof (min_nonpos R). pose proof (max_pos R).
  split; intros H1; repeat native_step; try reflexivity; lia.
Qed.

(** ** [modulus] *)

Lemma neg_exact T t :
  in_range (Native.promote T) t -> in_range (Native.promote T) (- t) ->
  Native.neg T t = Some (- t).
Proof.
  intros Ht H. unfold Native.neg. rewrite static_cast_id by assumption.
  apply result_exact, H.
Qed.

Lemma abs_spec U u : in_range U u -> abs U u = Some (Z.abs u).
Proof.
  intros Hu. unfold abs. unfold_native.
  rewrite compare_lit by (try assumption; range).
  destruct (Z.ltb_spec u 0) as [Hneg | Hpos]; cbv [andb].
  - destruct U; limits; try (exfalso; range);
      rewrite compare_exact by range;
      (match goal with
       | |- context [negb (u =? ?m)] =>
           destruct (Z.eqb_spec u m) as [-> | Hne]
       end;
       cbv [negb];
       [ vm_compute; reflexivity
       | limits; rewrite neg_exact by range; cbv [bind ret];
         (rewrite static_cast_id by range); f_equal; lia ]).
  - destruct U; limits; cbv [bind ret];
      (rewrite (static_cast_id _ u) by range);
      (rewrite static_cast_id by range); f_equal; lia.
Qed.

(** the remainder that [modulus] computes: the dividend converted to the
    common type, the divisor [|u|] unchanged *)
Lemma rem_abs T U t u :
  in_range U u -> u <> 0 ->
  Native.rem T (make_unsigned U) t (Z.abs u) =
  Some (Z.rem (static_cast (Native.common_type T (make_unsigned U)) t)
          (Z.abs u)).
Proof.
  intros Hu H0. unfold Native.rem.
  assert (Ha : in_range (Native.common_type T (make_unsigned U)) (Z.abs u)).
  { apply in_range_common_r; [apply abs_in_range, Hu | lia]. }
  rewrite (static_cast_id _ (Z.abs u)) by exact Ha.
  rewrite div_traps_false by lia. reflexivity.
Qed.

Lemma modulus_spec R T U t u :
  in_range U u ->
  modulus R T U t u =
  Some (if u =? 0 then Err domain_error "denominator is zero"
        else Ok (static_cast R
                   (Z.rem (static_cast
                             (Native.common_type T (make_unsigned U)) t)
                      (Z.abs u)))).
Proof.
  intros Hu. unfold modulus, Native.eq.
  rewrite compare_lit_r by (try assumption; range).
  rewrite Z.eqb_sym.
  destruct (Z.eqb_spec u 0) as [| H0]; [reflexivity |].
  rewrite abs_spec by assumption. cbv [bind].
  rewrite rem_abs by assumption. reflexivity.
Qed.

Lemma rem_sign t d :
  (0 <= t -> 0 <= Z.rem t d) /\ (t <= 0 -> Z.rem t d <= 0).
Proof. split; intros H; Z.to_euclidean_division_equations; nia. Qed.


(** ** Shifts *)

Lemma digits_bounds R :
  7 <= numeric_limits.digits R <= width R /\ width R <= 64.
Proof. destruct R; limits; lia. Qed.

Lemma in_range_zero T : in_range T 0.
Proof. destruct T; range. Qed.

Lemma in_range_promote T t : in_range T t -> in_range (Native.promote T) t.
Proof. destruct T; intros H; range. Qed.

Lemma make_unsigned_unsigned T : is_signed T = false -> make_unsigned T = T.
Proof. destruct T; intros H; try discriminate H; reflexivity. Qed.

Lemma make_unsigned_idem T : make_unsigned (make_unsigned T) = make_unsigned T.
Proof. destruct T; reflexivity. Qed.

Lemma pow2_ge_1 n : 0 <= n -> 1 <= 2 ^ n.
Proof. intros H. pose proof (Z.pow_pos_nonneg 2 n ltac:(lia) H). lia. Qed.



Lemma shiftr_bounds t u : 0 <= t -> 0 <= u -> 0 <= Z.shiftr t u <= t.
Proof.
  intros Ht Hu. rewrite Z.shiftr_div_pow2 by assumption.
  pose proof (pow2_ge_1 u Hu).
  Z.to_euclidean_division_equations; nia.
Qed.

Lemma shr_exact T U t u :
  in_range T t -> in_range U u -> 0 <= u ->
  Native.shr T U t u =
  if width (Native.promote T) <=? u then None else Some (Z.shiftr t u).
Proof.
  intros Ht Hu Hu0. unfold Native.shr.
  rewrite (static_cast_id _ t) by (apply in_range_promote, Ht).
  rewrite (static_cast_id _ u) by (apply in_range_promote, Hu).
  destruct (Z.ltb_spec u 0); [lia | reflexivity].
Qed.

(** the frame of both shifts, on values of the operand types *)
Lemma left_shift_frame_spec d R T U t u :
  in_range T t -> in_range U u ->
  left_shift_frame d R T U t u =
  if u =? 0 then Some (Ok (static_cast R t))
  else if u <? 0
  then Some (Err implementation_defined_behavior
               "shifting negative amount is implementation defined behavior")
  else if u >? numeric_limits.digits R
  then Some (Err implementation_defined_behavior
               "shifting more bits than available is implementation defined behavior")
  else if t =? 0 then Some (Ok 0)
  else d.
Proof.
  intros Ht Hu. pose proof (digits_bounds R).
  unfold left_shift_frame, Native.eq, Native.lt, Native.gt.
  rewrite !compare_lit by (try assumption; range).
  destruct (Z.eqb_spec t 0) as [-> |]; [| reflexivity].
  rewrite cast_in_range by apply in_range_zero. reflexivity.
Qed.

Lemma right_shift_spec R T U t u :
  in_range T t -> in_range U u ->
  right_shift R T U t u =
  if u =? 0 then Some (Ok (static_cast R t))
  else if u <? 0
  then Some (Err implementation_defined_behavior
               "shifting negative amount is implementation defined behavior")
  else if u >? numeric_limits.digits R
  then Some (Err implementation_defined_behavior
               "shifting more bits than available is implementation defined behavior")
  else if t =? 0 then Some (Ok 0)
  else if t <? 0
  then Some (Err implementation_defined_behavior
               "shifting a negative value is implementation defined behavior")
  else if width (Native.promote T) <=? u then None
  else Some (cast R (Native.promote T) (Z.shiftr t u)).
Proof.
  intros Ht Hu. pose proof (digits_bounds R).
  unfold right_shift, Native.eq, Native.lt, Native.gt.
  rewrite !compare_lit by (try assumption; range).
  destruct (Z.eqb_spec u 0); [reflexivity |].
  destruct (Z.ltb_spec u 0); [reflexivity |].
  destruct (Z.gtb_spec u (numeric_limits.digits R)); [reflexivity |].
  destruct (Z.eqb_spec t 0) as [-> |].
  { rewrite cast_in_range by apply in_range_zero. reflexivity. }
  unfold right_shift_integer_detail.right_shift, Native.lt.
  rewrite compare_lit by (try assumption; range).
  rewrite shr_exact by (try assumption; lia).
  destruct (is_signed T) eqn:ET.
  - destruct (Z.ltb_spec t 0); [reflexivity |].
    destruct (width (Native.promote T) <=? u); reflexivity.
  - destruct (Z.ltb_spec t 0).
    + exfalso. destruct Ht as [Ht _]. rewrite (min_unsigned T ET) in Ht. lia.
    + destruct (width (Native.promote T) <=? u); reflexivity.
Qed.

(** ** [utility::significant_bits] *)

Lemma significant_bits_nonneg x : 0 <= utility.significant_bits x.
Proof.
  unfold utility.significant_bits. destruct (x =? 0); [lia |].
  pose proof (Z.log2_nonneg (Z.abs x)). lia.
Qed.

Lemma significant_bits_le_64 T x :
  in_range T x -> utility.significant_bits x <= 64.
Proof.
  intros H. unfold utility.significant_bits.
  destruct (Z.eqb_spec x 0); [lia |].
  assert (Hx : Z.abs x < 18446744073709551616) by (destruct T; range).
  change 18446744073709551616 with (2 ^ 64) in Hx.
  apply Z.log2_lt_pow2 in Hx; lia.
Qed.

Lemma significant_bits_upper x : 0 <= x -> x < 2 ^ utility.significant_bits x.
Proof.
  intros H. unfold utility.significant_bits.
  destruct (Z.eqb_spec x 0) as [-> | Hx]; [reflexivity |].
  rewrite Z.abs_eq by exact H.
  replace (Z.log2 x + 1) with (Z.succ (Z.log2 x)) by lia.
  apply Z.log2_spec. lia.
Qed.

Lemma significant_bits_in_range T x :
  in_range T x -> in_range U32 (utility.significant_bits x).
Proof.
  intros H. pose proof (significant_bits_nonneg x).
  pose proof (significant_bits_le_64 T x H). range.
Qed.

Lemma left_shift_unsigned_spec R T U t u :
  in_range T t ->
  left_shift_integer_detail.left_shift_unsigned R T U t u =
  if u >? static_cast U32 (numeric_limits.digits R - utility.significant_bits t)
  then Some (Err undefined_behavior
               "shifting left more bits than available is undefined behavior")
  else match Native.shl T U t u with
       | Some s => Some (Ok (static_cast R s))
       | None => None
       end.
Proof.
  intros Ht. pose proof (digits_bounds R).
  unfold left_shift_integer_detail.left_shift_unsigned,
    utility.significant_bits_type, Native.sub, Native.arith,
    safe_compare.greater_than.
  change (Native.common_type I32 U32) with U32.
  unfold Native.result. change (is_signed U32) with false. cbv iota.
  rewrite (static_cast_id U32 (numeric_limits.digits R)) by range.
  rewrite (static_cast_id U32 (utility.significant_bits t))
    by (apply (significant_bits_in_range T), Ht).
  reflexivity.
Qed.

(** the overload selected by the dispatch on the signedness of [T],
    reached with a non-zero [t]: both overloads end in the one for the
    unsigned type *)
Lemma left_shift_dispatch_spec R T U t u :
  in_range T t -> in_range U u -> t <> 0 ->
  u <> 0 -> 0 <= u -> u <= numeric_limits.digits R ->
  left_shift_integer_detail.left_shift R T U t u (is_signed T) =
  if t <? 0
  then Some (Err undefined_behavior
               "shifting a negative value is undefined behavior")
  else left_shift_integer_detail.left_shift_unsigned
         R (make_unsigned T) U t u.
Proof.
  intros Ht Hu Ht0 Hu0 Hu1 Hu2.
  unfold left_shift_integer_detail.left_shift.
  destruct (is_signed T) eqn:ET.
  - unfold left_shift_integer_detail.left_shift_signed, Native.ge.
    rewrite compare_lit by (try assumption; range).
    destruct (Z.geb_spec t 0); destruct (Z.ltb_spec t 0); try lia;
      [| reflexivity].
    rewrite (static_cast_id (make_unsigned T) t)
      by (apply in_range_make_unsigned; assumption).
    rewrite left_shift_frame_spec
      by (try assumption; apply in_range_make_unsigned; assumption).
    destruct (Z.eqb_spec u 0); [contradiction |].
    destruct (Z.ltb_spec u 0); [lia |].
    destruct (Z.gtb_spec u (numeric_limits.digits R)); [lia |].
    destruct (Z.eqb_spec t 0); [contradiction | reflexivity].
  - rewrite (make_unsigned_unsigned T ET).
    destruct (Z.ltb_spec t 0); [| reflexivity].
    exfalso. destruct Ht as [Ht _]. rewrite (min_unsigned T ET) in Ht. lia.
Qed.

Lemma left_shift_spec R T U t u :
  in_range T t -> in_range U u ->
  left_shift R T U t u =
  if u =? 0 then Some (Ok (static_cast R t))
  else if u <? 0
  then Some (Err implementation_defined_behavior
               "shifting negative amount is implementation defined behavior")
  else if u >? numeric_limits.digits R
  then Some (Err implementation_defined_behavior
               "shifting more bits than available is implementation defined behavior")
  else if t =? 0 then Some (Ok 0)
  else if t <? 0
  then Some (Err undefined_behavior
               "shifting a negative value is undefined behavior")
  else if u >? static_cast U32
                 (numeric_limits.digits R - utility.significant_bits t)
  then Some (Err undefined_behavior
               "shifting left more bits than available is undefined behavior")
  else match Native.shl (make_unsigned T) U t u with
       | Some s => Some (Ok (static_cast R s))
       | None => None
       end.
Proof.
  intros Ht Hu. unfold left_shift.
  rewrite left_shift_frame_spec by assumption.
  destruct (Z.eqb_spec u 0); [reflexivity |].
  destruct (Z.ltb_spec u 0); [reflexivity |].
  destruct (Z.gtb_spec u (numeric_limits.digits R)); [reflexivity |].
  destruct (Z.eqb_spec t 0); [reflexivity |].
  rewrite left_shift_dispatch_spec by assumption.
  destruct (Z.ltb_spec t 0); [reflexivity |].
  apply left_shift_unsigned_spec.
  apply in_range_make_unsigned; assumption.
Qed.


Lemma right_shift_ok R T U t u :
  in_range T t -> in_range U u ->
  in_range R (Z.shiftr t u) ->
  exact_when_ok (right_shift R T U t u) (Z.shiftr t u).
Proof.
  intros Ht Hu HR v. rewrite right_shift_spec by assumption.
  destruct (Z.eqb_spec u 0) as [-> |].
  { rewrite Z.shiftr_0_r in *. rewrite static_cast_id by assumption.
    congruence. }
  destruct (Z.ltb_spec u 0); [discriminate |].
  destruct (Z.gtb_spec u (numeric_limits.digits R)); [discriminate |].
  destruct (Z.eqb_spec t 0) as [-> |]; [rewrite Z.shiftr_0_l; congruence |].
  destruct (Z.ltb_spec t 0); [discriminate |].
  destruct (_ <=? _); [discriminate |].
  rewrite cast_in_range; [congruence | | assumption].
  pose proof (shiftr_bounds t u ltac:(lia) ltac:(lia)).
  apply in_range_promote in Ht.
  pose proof (min_nonpos (Native.promote T)).
  unfold in_range in *. lia.
Qed.

(** ** Bitwise operations on non-negative operands *)

Lemma lt_pow2_log2 a k :
  0 <= a -> 0 <= k -> (a < 2 ^ k <-> a = 0 \/ Z.log2 a < k).
Proof.
  intros Ha Hk. destruct (Z.eq_dec a 0) as [-> | Hne].
  - pose proof (Z.pow_pos_nonneg 2 k ltac:(lia) Hk). intuition lia.
  - rewrite (Z.log2_lt_pow2 a k) by lia. intuition lia.
Qed.

Lemma lor_lt_pow2 a b k :
  0 <= a < 2 ^ k -> 0 <= b < 2 ^ k -> 0 <= k -> 0 <= Z.lor a b < 2 ^ k.
Proof.
  intros [Ha Ha'] [Hb Hb'] Hk.
  split; [apply Z.lor_nonneg; auto |].
  assert (H0 : 0 <= Z.lor a b) by (apply Z.lor_nonneg; auto).
  apply lt_pow2_log2 in Ha', Hb'; try assumption.
  apply lt_pow2_log2; try assumption.
  destruct (Z.eq_dec (Z.lor a b) 0) as [| Hne]; [left; assumption | right].
  rewrite Z.log2_lor by assumption.
  pose proof (Z.log2_nonneg a). pose proof (Z.log2_nonneg b).
  destruct Ha' as [-> | Ha'], Hb' as [-> | Hb']; cbn [Z.log2] in *;
    try rewrite Z.lor_0_l in *; try rewrite Z.lor_0_r in *; try lia.
Qed.

Lemma lxor_lt_pow2 a b k :
  0 <= a < 2 ^ k -> 0 <= b < 2 ^ k -> 0 <= k -> 0 <= Z.lxor a b < 2 ^ k.
Proof.
  intros [Ha Ha'] [Hb Hb'] Hk.
  assert (H0 : 0 <= Z.lxor a b) by (apply Z.lxor_nonneg; lia).
  split; [exact H0 |].
  apply lt_pow2_log2 in Ha', Hb'; try assumption.
  apply lt_pow2_log2; try assumption.
  destruct (Z.eq_dec (Z.lxor a b) 0) as [| Hne]; [left; assumption | right].
  pose proof (Z.log2_lxor a b Ha Hb).
  pose proof (Z.log2_nonneg a). pose proof (Z.log2_nonneg b).
  destruct Ha' as [-> | Ha'], Hb' as [-> | Hb']; cbn [Z.log2] in *;
    try rewrite Z.lxor_0_l in *; try rewrite Z.lxor_0_r in *; try lia.
Qed.

Lemma land_lt_pow2 a b k :
  0 <= a -> 0 <= b -> 0 <= k -> a < 2 ^ k \/ b < 2 ^ k ->
  0 <= Z.land a b < 2 ^ k.
Proof.
  intros Ha Hb Hk H.
  assert (H0 : 0 <= Z.land a b) by (apply Z.land_nonneg; auto).
  split; [exact H0 |].
  apply lt_pow2_log2; try assumption.
  destruct (Z.eq_dec (Z.land a b) 0) as [| Hne]; [left; assumption | right].
  pose proof (Z.log2_land a b Ha Hb).
  destruct H as [H | H]; apply lt_pow2_log2 in H; try assumption;
    destruct H as [-> | H];
    try rewrite Z.land_0_l in *; try rewrite Z.land_0_r in *; lia.
Qed.

(** the value bits of a type bound its non-negative values *)
Lemma in_range_nonneg_iff C z :
  0 <= z -> (in_range C z <-> z < 2 ^ numeric_limits.digits C).
Proof.
  intros Hz. pose proof (min_nonpos C).
  unfold in_range, numeric_limits.max. intuition lia.
Qed.

Lemma digits_unsigned R :
  is_signed R = false -> numeric_limits.digits R = width R.
Proof. unfold numeric_limits.digits. intros ->. reflexivity. Qed.

Lemma digits_nonneg C : 0 <= numeric_limits.digits C.
Proof. destruct C; limits; lia. Qed.

Section Bitwise.

Variables R T U : itype.
Variables t u : Z.
Hypothesis Ht : in_range T t.
Hypothesis Hu : in_range U u.
Hypothesis Ht0 : 0 <= t.
Hypothesis Hu0 : 0 <= u.

Let C := Native.common_type T U.

(** [result_size] of [bitwise_or] and [bitwise_xor], and of [bitwise_and] *)
Local Abbreviation size_max :=
  (Z.max (utility.significant_bits t) (utility.significant_bits u))
  (only parsing).
Local Abbreviation size_min :=
  (Z.min (utility.significant_bits t) (utility.significant_bits u))
  (only parsing).

Lemma bitop_operands : in_range C t /\ in_range C u.
Proof.
  split; [apply in_range_common_l | apply in_range_common_r]; auto.
Qed.

Lemma bitop_exact f :
  in_range C (f t u) -> Native.bitop f T U t u = f t u.
Proof.
  intros H. destruct bitop_operands as [H1 H2]. unfold Native.bitop.
  fold C. rewrite (static_cast_id C t), (static_cast_id C u) by assumption.
  apply static_cast_id, H.
Qed.

Lemma bit_or_exact : Native.bit_or T U t u = Z.lor t u.
Proof.
  destruct bitop_operands as [H1 H2]. apply bitop_exact.
  apply in_range_nonneg_iff in H1, H2; try assumption.
  apply in_range_nonneg_iff; [apply Z.lor_nonneg; auto |].
  apply lor_lt_pow2; auto using digits_nonneg.
Qed.

Lemma bit_xor_exact : Native.bit_xor T U t u = Z.lxor t u.
Proof.
  destruct bitop_operands as [H1 H2]. apply bitop_exact.
  apply in_range_nonneg_iff in H1, H2; try assumption.
  apply in_range_nonneg_iff; [apply Z.lxor_nonneg; lia |].
  apply lxor_lt_pow2; auto using digits_nonneg.
Qed.

Lemma bit_and_exact : Native.bit_and T U t u = Z.land t u.
Proof.
  destruct bitop_operands as [H1 H2]. apply bitop_exact.
  apply in_range_nonneg_iff in H1, H2; try assumption.
  apply in_range_nonneg_iff; [apply Z.land_nonneg; auto |].
  apply land_lt_pow2; auto using digits_nonneg.
Qed.

(** the width check of the three operations *)
Lemma result_size_check s :
  0 <= s <= 64 ->
  Native.gt utility.significant_bits_type I32 s (utility.bits_type R) =
  (s >? width R).
Proof.
  intros Hs. pose proof (digits_bounds R).
  unfold Native.gt, utility.significant_bits_type, utility.bits_type.
  apply compare_exact; range.
Qed.

Lemma result_size_bounds :
  0 <= size_max <= 64 /\ 0 <= size_min <= 64.
Proof.
  pose proof (significant_bits_nonneg t).
  pose proof (significant_bits_nonneg u).
  pose proof (significant_bits_le_64 T t Ht).
  pose proof (significant_bits_le_64 U u Hu).
  lia.
Qed.

Lemma bitwise_or_spec :
  bitwise_or R T U t u =
  Some (if size_max >? width R
        then Err positive_overflow_error
               "result type too small to hold bitwise or"
        else Ok (static_cast R (Z.lor t u))).
Proof.
  unfold bitwise_or.
  rewrite result_size_check by apply result_size_bounds.
  rewrite bit_or_exact. destruct (_ >? _); reflexivity.
Qed.

Lemma bitwise_xor_spec :
  bitwise_xor R T U t u =
  Some (if size_max >? width R
        then Err positive_overflow_error
               "result type too small to hold bitwise or"
        else Ok (static_cast R (Z.lxor t u))).
Proof.
  unfold bitwise_xor.
  rewrite result_size_check by apply result_size_bounds.
  rewrite bit_xor_exact. destruct (_ >? _); reflexivity.
Qed.

Lemma bitwise_and_spec :
  bitwise_and R T U t u =
  Some (if size_min >? width R
        then Err positive_overflow_error
               "result type too small to hold bitwise or"
        else Ok (static_cast R (Z.land t u))).
Proof.
  unfold bitwise_and.
  rewrite result_size_check by apply result_size_bounds.
  rewrite bit_and_exact. destruct (_ >? _); reflexivity.
Qed.

(** an unsigned [R] that passes the width check holds the result *)
Lemma fits_unsigned z s :
  is_signed R = false -> 0 <= z < 2 ^ s -> 0 <= s <= width R ->
  in_range R z.
Proof.
  intros ER [Hz Hz'] Hs. apply in_range_nonneg_iff; [exact Hz |].
  rewrite (digits_unsigned R ER).
  pose proof (Z.pow_le_mono_r 2 s (width R) ltac:(lia) ltac:(lia)). lia.
Qed.

Lemma operands_lt_pow2 :
  0 <= t < 2 ^ utility.significant_bits t /\
  0 <= u < 2 ^ utility.significant_bits u.
Proof.
  pose proof (significant_bits_upper t Ht0).
  pose proof (significant_bits_upper u Hu0).
  lia.
Qed.

Lemma operands_lt_pow2_max :
  0 <= t < 2 ^ size_max /\ 0 <= u < 2 ^ size_max.
Proof.
  destruct operands_lt_pow2 as [[_ H1] [_ H2]].
  pose proof (significant_bits_nonneg t).
  pose proof (significant_bits_nonneg u).
  pose proof (Z.pow_le_mono_r 2 (utility.significant_bits t) size_max
                ltac:(lia) ltac:(lia)).
  pose proof (Z.pow_le_mono_r 2 (utility.significant_bits u) size_max
                ltac:(lia) ltac:(lia)).
  lia.
Qed.

Lemma bitwise_or_ok :
  is_signed R = false \/ in_range R (Z.lor t u) ->
  exact_when_ok (bitwise_or R T U t u) (Z.lor t u).
Proof.
  intros H v. rewrite bitwise_or_spec.
  destruct (Z.gtb_spec size_max (width R)); [discriminate |].
  rewrite static_cast_id; [congruence |].
  destruct H as [ER | H]; [| exact H].
  destruct operands_lt_pow2_max as [H1 H2].
  apply (fits_unsigned _ size_max ER);
    [apply lor_lt_pow2 | ]; pose proof result_size_bounds; lia.
Qed.

Lemma bitwise_xor_ok :
  is_signed R = false \/ in_range R (Z.lxor t u) ->
  exact_when_ok (bitwise_xor R T U t u) (Z.lxor t u).
Proof.
  intros H v. rewrite bitwise_xor_spec.
  destruct (Z.gtb_spec size_max (width R)); [discriminate |].
  rewrite static_cast_id; [congruence |].
  destruct H as [ER | H]; [| exact H].
  destruct operands_lt_pow2_max as [H1 H2].
  apply (fits_unsigned _ size_max ER);
    [apply lxor_lt_pow2 | ]; pose proof result_size_bounds; lia.
Qed.


End Bitwise.

(** * Operations that return *)















(** * The claims of the specification *)

(** ** C1: the value of an [Ok] result *)




(** Each condition of the amended C1 is needed: further results that
    are [Ok] without holding the exact value. *)

(** the native shift is evaluated in [unsigned int] and loses the bit *)
Example left_shift_drops_high_bit :
  left_shift U64 U32 I32 2147483648 1 = Some (Ok 0).
Proof. vm_compute. reflexivity. Qed.

(** [digits - significant_bits(t)] wraps around in [unsigned int] *)
Example left_shift_wide_operand :
  left_shift U8 U16 I32 511 1 = Some (Ok 254).
Proof. vm_compute. reflexivity. Qed.

Example right_shift_by_zero_wraps :
  right_shift U8 I32 I32 300 0 = Some (Ok 44).
Proof. vm_compute. reflexivity. Qed.

(** an [int] shifted right by its width: the native shift is undefined,
    and the frame lets the count pass for a result type of 64 bits *)
Example right_shift_count_at_width :
  right_shift U64 I32 I32 1 32 = None.
Proof. vm_compute. reflexivity. Qed.

(** [abs(u)] is unsigned, so an [int] dividend is converted to
    [unsigned int] before the remainder is taken *)
Example modulus_unsigned_dividend :
  modulus I32 I32 I32 (-7) 3 = Some (Ok 0) /\ Z.rem (-7) (Z.abs 3) = -1.
Proof. split; vm_compute; reflexivity. Qed.

Example bitwise_or_signed_result :
  bitwise_or I8 U8 U8 128 0 = Some (Ok (-128)).
Proof. vm_compute. reflexivity. Qed.

Example bitwise_or_negative_operand :
  bitwise_or U64 U32 I8 0 (-1) = Some (Ok 4294967295).
Proof. vm_compute. reflexivity. Qed.

(** ** C2: casting a signed value to an unsigned type *)

(** C2.  For an unsigned [R] and a signed [T], [cast<R>(t)] is
    [Err domain_error] when [t < 0], [Err positive_overflow_error] when
    [t > R::max], and [Ok (static_cast<R>(t))], which is [t] itself,
    otherwise; [cast<u8>] of the [i8] value [-1] is [Err domain_error]. *)
Theorem cast_signed_to_unsigned R T t :
  is_signed R = false -> is_signed T = true -> in_range T t ->
  (t < 0 ->
   cast R T t = Err domain_error "converted negative value to unsigned") /\
  (t > numeric_limits.max R ->
   cast R T t =
   Err positive_overflow_error "converted signed value too large") /\
  (0 <= t <= numeric_limits.max R ->
   cast R T t = Ok (static_cast R t) /\ static_cast R t = t) /\
  cast U8 I8 (-1) = Err domain_error "converted negative value to unsigned".
Proof.
  intros ER ET Ht.
  unfold cast, cast_impl_detail.cast_impl, safe_compare.less_than,
    safe_compare.greater_than.
  rewrite ER, ET.
  repeat split.
  - intros H. destruct (Z.ltb_spec t 0); [reflexivity | lia].
  - intros H. pose proof (max_pos R).
    destruct (Z.ltb_spec t 0); [lia |].
    destruct (Z.gtb_spec t (numeric_limits.max R)); [reflexivity | lia].
  - destruct (Z.ltb_spec t 0); [lia |].
    destruct (Z.gtb_spec t (numeric_limits.max R)); [lia | reflexivity].
  - apply static_cast_id. unfold in_range. rewrite (min_unsigned R ER). lia.
Qed.

Lemma cast_signed_to_unsigned_witness :
  cast U8 I16 300 =
  Err positive_overflow_error "converted signed value too large" /\
  cast U8 I16 200 = Ok (static_cast U8 200).
Proof.
  destruct (cast_signed_to_unsigned U8 I16 300 eq_refl eq_refl)
    as (_ & H & _); [vm_compute; split; discriminate |].
  destruct (cast_signed_to_unsigned U8 I16 200 eq_refl eq_refl)
    as (_ & _ & H' & _); [vm_compute; split; discriminate |].
  split.
  - apply H. reflexivity.
  - apply H'. vm_compute. split; discriminate.
Defined.

(** ** C3: the cases of [divide] *)

(** C3.  [divide<R>(t, u)] is [Err domain_error] ("divide by zero") when
    [u = 0], whatever the casts would give; for [u <> 0] it is
    [Err domain_error] ("failure converting argument types") when the
    cast of [t] or of [u] into [R] fails, whatever the error kind of the
    cast; when both casts succeed it is [Err range_error] for a signed
    [R] with [u = -1] and [t = R::min], and [Ok] of the quotient truncated
    toward zero otherwise. *)
Theorem divide_cases R T U t u :
  in_range T t -> in_range U u ->
  (u = 0 -> divide R T U t u = Some (Err domain_error "divide by zero")) /\
  (u <> 0 ->
   exception (cast R T t) = true \/ exception (cast R U u) = true ->
   divide R T U t u =
   Some (Err domain_error "failure converting argument types")) /\
  (is_signed R = true -> u = -1 -> t = numeric_limits.min R ->
   divide R T U t u =
   Some (Err range_error "result cannot be represented")) /\
  (u <> 0 ->
   exception (cast R T t) = false -> exception (cast R U u) = false ->
   ~ (is_signed R = true /\ u = -1 /\ t = numeric_limits.min R) ->
   divide R T U t u = Some (Ok (Z.quot t u))).
Proof.
  intros Ht Hu. rewrite divide_spec by assumption.
  split; [| split; [| split]].
  - intros ->. reflexivity.
  - intros H0 H. destruct (Z.eqb_spec u 0); [contradiction |].
    destruct H as [-> | ->]; rewrite ?orb_true_r; reflexivity.
  - intros ER -> ->.
    rewrite !cast_in_range, ER, !Z.eqb_refl;
      try assumption; try reflexivity.
    + split; [apply min_signed_neg, ER | pose proof (max_pos R); lia].
    + split; [lia | pose proof (max_pos R); pose proof (min_nonpos R); lia].
  - intros H0 -> -> H. destruct (Z.eqb_spec u 0); [contradiction |].
    cbv [orb]. destruct (is_signed R); [| reflexivity].
    destruct (Z.eqb_spec u (-1)); [| reflexivity].
    destruct (Z.eqb_spec t (numeric_limits.min R)); [| reflexivity].
    exfalso. apply H. auto.
Qed.

Lemma divide_cases_witness :
  divide I8 I32 I32 (-128) (-1) =
  Some (Err range_error "result cannot be represented") /\
  divide I8 I32 I32 (-7) 2 = Some (Ok (Z.quot (-7) 2)) /\
  divide U8 I32 I32 300 1 =
  Some (Err domain_error "failure converting argument types") /\
  divide U8 I32 I32 300 0 = Some (Err domain_error "divide by zero").
Proof.
  assert (R1 : in_range I32 (-128)) by (vm_compute; split; discriminate).
  assert (R2 : in_range I32 (-1)) by (vm_compute; split; discriminate).
  assert (R3 : in_range I32 (-7)) by (vm_compute; split; discriminate).
  assert (R4 : in_range I32 2) by (vm_compute; split; discriminate).
  assert (R5 : in_range I32 300) by (vm_compute; split; discriminate).
  assert (R6 : in_range I32 1) by (vm_compute; split; discriminate).
  assert (R7 : in_range I32 0) by (vm_compute; split; discriminate).
  split; [| split; [| split]].
  - destruct (divide_cases I8 I32 I32 (-128) (-1) R1 R2) as (_ & _ & H & _).
    apply H; reflexivity.
  - destruct (divide_cases I8 I32 I32 (-7) 2 R3 R4) as (_ & _ & _ & H).
    apply H; try reflexivity; try discriminate.
    intros (_ & E & _). discriminate E.
  - destruct (divide_cases U8 I32 I32 300 1 R5 R6) as (_ & H & _).
    apply H; [discriminate | left; reflexivity].
  - destruct (divide_cases U8 I32 I32 300 0 R5 R7) as (H & _).
    apply H. reflexivity.
Defined.

(** ** C4: the error kinds of signed [subtract] *)

(** C4 does not hold of the code: the signed overload of
    [subtract_impl_detail::subtract] has the two error kinds exchanged.
    [subtract<i8>(-128, 1)], whose difference [-129] lies below
    [i8::min], is a [positive_overflow_error]; [subtract<i8>(127, -1)],
    whose difference [128] lies above [i8::max], is a
    [negative_overflow_error]. *)
Theorem subtract_signed_overflow_kinds :
  subtract I8 I8 I8 (-128) 1 =
  Some (Err positive_overflow_error
          "subtraction result overflows result type") /\
  subtract I8 I8 I8 127 (-1) =
  Some (Err negative_overflow_error
          "subtraction result overflows result type").
Proof. split; vm_compute; reflexivity. Qed.

(** ** C5: shift counts beyond the width of [R] *)

(** C5, as stated, fails on its example: [left_shift<u8>(1, 8)] is not an
    [implementation_defined_behavior] error. *)
Lemma left_shift_u8_1_8_kind :
  error_kind (left_shift U8 I32 I32 1 8) <>
  Some implementation_defined_behavior.
Proof. vm_compute. discriminate. Qed.

(** C5, amended.  Both shifts reject a count [u] strictly greater than
    [width R] with [implementation_defined_behavior]; the count [8] of
    [left_shift<u8>(1, 8)] is not greater than the width, passes these
    checks, and the check of the unsigned left shift returns
    [Err undefined_behavior]. *)
Theorem shift_count_beyond_width R T U t u :
  in_range T t -> in_range U u -> width R < u ->
  left_shift R T U t u =
  Some (Err implementation_defined_behavior
          "shifting more bits than available is implementation defined behavior") /\
  right_shift R T U t u =
  Some (Err implementation_defined_behavior
          "shifting more bits than available is implementation defined behavior") /\
  left_shift U8 I32 I32 1 8 =
  Some (Err undefined_behavior
          "shifting left more bits than available is undefined behavior") /\
  left_shift U8 U8 U8 1 8 =
  Some (Err undefined_behavior
          "shifting left more bits than available is undefined behavior").
Proof.
  intros Ht Hu H. pose proof (digits_bounds R).
  rewrite left_shift_spec, right_shift_spec by assumption.
  destruct (Z.eqb_spec u 0); [lia |].
  destruct (Z.ltb_spec u 0); [lia |].
  destruct (Z.gtb_spec u (numeric_limits.digits R)); [| lia].
  repeat split; vm_compute; reflexivity.
Qed.

Lemma shift_count_beyond_width_witness :
  left_shift U8 I32 I32 1 9 =
  Some (Err implementation_defined_behavior
          "shifting more bits than available is implementation defined behavior").
Proof.
  refine (proj1 (shift_count_beyond_width U8 I32 I32 1 9 _ _ _)).
  - vm_compute; split; discriminate.
  - vm_compute; split; discriminate.
  - reflexivity.
Defined.

(** ** C6: shifting by zero *)

(** C6, as stated, fails for a [t] that [R] cannot represent:
    [left_shift<u8>(300, 0)] is [Ok 44]. *)
Lemma left_shift_by_zero_not_identity :
  ~ exact_when_ok (left_shift U8 I32 I32 300 0) 300.
Proof. intros H. specialize (H 44 eq_refl). discriminate H. Qed.

(** C6, amended.  [left_shift<R>(t, 0)] and [right_shift<R>(t, 0)] are
    [Ok (static_cast<R>(t))]: this value is [t] when [t] is representable
    in [R], and differs from [t] ([t] reduced modulo [2 ^ width R]) when
    it is not. *)
Theorem shift_by_zero R T U t :
  in_range T t ->
  left_shift R T U t 0 = Some (Ok (static_cast R t)) /\
  right_shift R T U t 0 = Some (Ok (static_cast R t)) /\
  (in_range R t -> static_cast R t = t) /\
  (~ in_range R t -> static_cast R t <> t).
Proof.
  intros Ht.
  assert (H0 : in_range U 0) by apply in_range_zero.
  rewrite left_shift_spec, right_shift_spec by assumption.
  split; [reflexivity |]. split; [reflexivity |].
  split; [apply static_cast_id |].
  intros H E. apply H. rewrite <- E. apply static_cast_in_range.
Qed.

Lemma shift_by_zero_witness :
  left_shift U8 I32 I32 77 0 = Some (Ok 77) /\
  right_shift U8 I32 I32 300 0 = Some (Ok (static_cast U8 300)).
Proof.
  assert (R1 : in_range I32 77) by (vm_compute; split; discriminate).
  assert (R2 : in_range I32 300) by (vm_compute; split; discriminate).
  destruct (shift_by_zero U8 I32 I32 77 R1) as (H1 & _ & H3 & _).
  destruct (shift_by_zero U8 I32 I32 300 R2) as (_ & H2 & _).
  split; [| exact H2].
  rewrite H1, H3; [reflexivity | vm_compute; split; discriminate].
Defined.

(** ** C7: the value of [modulus] *)

(** C7, as stated, fails: [modulus<u8>] of the [i8] values [-5] and [3]
    is [Ok 254], not the remainder [-2], which has the sign of the
    dividend and which [u8] cannot hold. *)
Lemma modulus_not_exact :
  ~ exact_when_ok (modulus U8 I8 I8 (-5) 3) (Z.rem (-5) (Z.abs 3)).
Proof. intros H. specialize (H 254 eq_refl). discriminate H. Qed.

(** C7, amended.  For [u <> 0], when the usual arithmetic conversions
    leave the dividend unchanged ([t >= 0], or the common type of [T] and
    [make_unsigned<U>] is signed), [modulus<R>(t, u)] is [Ok] of
    [t mod |u|] converted to [R] without a range check: it is [t mod |u|]
    itself when [R] can represent that value, which has the sign of the
    dividend.  [modulus<i8>(-128, -1)] is [Ok 0]. *)
Theorem modulus_value R T U t u :
  in_range T t -> in_range U u -> u <> 0 ->
  0 <= t \/ is_signed (Native.common_type T (make_unsigned U)) = true ->
  modulus R T U t u = Some (Ok (static_cast R (Z.rem t (Z.abs u)))) /\
  (in_range R (Z.rem t (Z.abs u)) ->
   modulus R T U t u = Some (Ok (Z.rem t (Z.abs u)))) /\
  (0 <= t -> 0 <= Z.rem t (Z.abs u)) /\
  (t <= 0 -> Z.rem t (Z.abs u) <= 0) /\
  modulus I8 I8 I8 (-128) (-1) = Some (Ok 0) /\
  modulus I8 I32 I32 (-128) (-1) = Some (Ok 0).
Proof.
  intros Ht Hu H0 Hc.
  assert (E : modulus R T U t u =
              Some (Ok (static_cast R (Z.rem t (Z.abs u))))).
  { rewrite modulus_spec by assumption.
    destruct (Z.eqb_spec u 0); [contradiction |].
    rewrite (static_cast_id _ t) by (apply in_range_common_l; assumption).
    reflexivity. }
  split; [exact E |]. split; [| split; [| split; [| split]]].
  - intros Hr. rewrite E, static_cast_id by assumption. reflexivity.
  - apply rem_sign.
  - apply rem_sign.
  - reflexivity.
  - reflexivity.
Qed.

Lemma modulus_value_witness :
  modulus I16 I16 I16 (-7) 3 = Some (Ok (Z.rem (-7) (Z.abs 3))).
Proof.
  refine (proj1 (proj2 (modulus_value I16 I16 I16 (-7) 3 _ _ _ _)) _).
  - vm_compute; split; discriminate.
  - vm_compute; split; discriminate.
  - discriminate.
  - right. reflexivity.
  - vm_compute; split; discriminate.
Defined.

(** ** C8: cast round trip *)

(** C8.  For a [t] that both [T] and [R] can represent, if
    [cast<R>(t) = Ok r] then the cast of [r] back to [T] is [Ok t]. *)
Theorem cast_round_trip R T t r :
  in_range T t -> in_range R t ->
  cast R T t = Ok r -> cast T R r = Ok t.
Proof.
  intros HT HR H.
  destruct (cast_ok_inv R T t r HT H) as [-> _].
  apply cast_in_range; assumption.
Qed.

Lemma cast_round_trip_witness : cast I16 U8 200 = Ok 200.
Proof.
  apply (cast_round_trip U8 I16 200 200).
  - vm_compute; split; discriminate.
  - vm_compute; split; discriminate.
  - reflexivity.
Defined.

(** ** C9: [modulus] has no error but division by zero *)

(** C9.  [modulus<R>(t, u)] casts neither operand into [R] and checks no
    range: for [u <> 0] it is [Ok], of the native remainder converted to
    [R], for all [t] and [u] of the operand types, representable in [R]
    or not; its only error is the [domain_error] for [u = 0]. *)
Theorem modulus_only_error R T U t u :
  in_range T t -> in_range U u ->
  (u = 0 ->
   modulus R T U t u = Some (Err domain_error "denominator is zero")) /\
  (u <> 0 ->
   modulus R T U t u =
   Some (Ok (static_cast R
               (Z.rem (static_cast
                         (Native.common_type T (make_unsigned U)) t)
                  (Z.abs u))))) /\
  (forall k m, modulus R T U t u = Some (Err k m) ->
               k = domain_error /\ u = 0).
Proof.
  intros Ht Hu. rewrite modulus_spec by assumption.
  destruct (Z.eqb_spec u 0) as [E | E].
  - split; [reflexivity |]. split; [contradiction |].
    intros k m H. injection H as <- _. auto.
  - split; [contradiction |]. split; [reflexivity |].
    intros k m H. discriminate H.
Qed.

Lemma modulus_only_error_witness :
  exception (cast U8 I32 300) = true /\
  exception (cast U8 I32 1000) = true /\
  modulus U8 I32 I32 300 1000 = Some (Ok 44).
Proof.
  split; [reflexivity |]. split; [reflexivity |].
  refine (proj1 (proj2 (modulus_only_error U8 I32 I32 300 1000 _ _)) _).
  - vm_compute; split; discriminate.
  - vm_compute; split; discriminate.
  - discriminate.
Defined.

(** ** C10: the native division and remainder never fault *)

(** C10.  [divide] and [modulus] never apply the native [/] or [%] to a
    pair of operands at which it faults (such an application would make
    the result [None]): [divide] reaches [t / u] only with [u <> 0] and,
    for a signed [R], not with [t = R::min] and [u = -1]; [modulus]
    reaches [t % abs(u)] only with a divisor that, in the type in which
    the remainder is taken, is positive, hence neither [0] nor [-1]. *)
Theorem division_never_traps R T U t u :
  in_range T t -> in_range U u ->
  divide R T U t u <> None /\
  modulus R T U t u <> None /\
  (forall v, divide R T U t u = Some (Ok v) ->
     u <> 0 /\
     ~ (is_signed R = true /\ t = numeric_limits.min R /\ u = -1)) /\
  (forall v, modulus R T U t u = Some (Ok v) ->
     let C := Native.common_type T (make_unsigned U) in
     exists a,
       abs U u = Some a /\ 0 < static_cast C a /\
       Native.div_traps C (static_cast C t) (static_cast C a) = false).
Proof.
  intros Ht Hu.
  rewrite divide_spec, modulus_spec by assumption.
  split; [discriminate |]. split; [discriminate |]. split.
  - intros v H. destruct (Z.eqb_spec u 0) as [| H0]; [discriminate |].
    split; [exact H0 |].
    destruct (exception (cast R T t) || exception (cast R U u));
      [discriminate |].
    intros (E1 & E2 & E3). rewrite E1, E2, E3, !Z.eqb_refl in H.
    discriminate H.
  - intros v H C. destruct (Z.eqb_spec u 0) as [| H0]; [discriminate |].
    exists (Z.abs u).
    assert (Ha : in_range C (Z.abs u)).
    { apply in_range_common_r; [apply abs_in_range, Hu | lia]. }
    rewrite (static_cast_id C (Z.abs u)) by exact Ha.
    split; [apply abs_spec, Hu |]. split; [lia |].
    apply div_traps_false; lia.
Qed.

Lemma division_never_traps_witness :
  divide I32 I32 I32 (-2147483648) (-1) <> None /\
  modulus I32 I32 I32 (-2147483648) (-1) <> None.
Proof.
  assert (R1 : in_range I32 (-2147483648))
    by (vm_compute; split; discriminate).
  assert (R2 : in_range I32 (-1)) by (vm_compute; split; discriminate).
  destruct (division_never_traps I32 I32 I32 (-2147483648) (-1) R1 R2)
    as (H1 & H2 & _).
  split; assumption.
Defined.

(** * Further properties of the checked operations *)


(** ** [cast] *)

(** closed side conditions of an instance *)
Ltac closed := vm_compute; repeat split; try discriminate.

(** the error of a failed cast, by the side on which [t] leaves [R] *)
Lemma cast_kind_above R T t :
  in_range T t -> numeric_limits.max R < t ->
  exists m, cast R T t = Err positive_overflow_error m.
Proof.
  intros Ht H. pose proof (max_pos R).
  unfold cast, cast_impl_detail.cast_impl, safe_compare.greater_than,
    safe_compare.less_than.
  destruct (Z.gtb_spec t (numeric_limits.max R)); [| lia].
  destruct (Z.ltb_spec t 0); [lia |].
  destruct (is_signed R), (is_signed T); eauto.
Qed.

Lemma cast_kind_below R T t :
  in_range T t -> t < numeric_limits.min R ->
  exists m,
    cast R T t =
    Err (if is_signed R then negative_overflow_error else domain_error) m.
Proof.
  intros Ht H. pose proof (max_pos R). pose proof (min_nonpos R).
  unfold cast, cast_impl_detail.cast_impl, safe_compare.greater_than,
    safe_compare.less_than.
  destruct (Z.gtb_spec t (numeric_limits.max R)); [lia |].
  destruct (Z.ltb_spec t (numeric_limits.min R)); [| lia].
  destruct (is_signed R) eqn:ER, (is_signed T) eqn:ET; eauto.
  - exfalso. destruct Ht as [Ht _]. rewrite (min_unsigned T ET) in Ht. lia.
  - rewrite (min_unsigned R ER) in *.
    destruct (Z.ltb_spec t 0); [eauto | lia].
  - exfalso. destruct Ht as [Ht _]. rewrite (min_unsigned T ET) in Ht. lia.
Qed.

(** X1.  [cast<R>(t)] succeeds exactly on the values of [T] that [R] can
    represent, and then returns the value unchanged; an [Ok] result is
    never anything but [t] itself, and lies in [R]. *)
Theorem cast_ok_iff_representable R T t :
  in_range T t ->
  (in_range R t -> cast R T t = Ok t) /\
  (~ in_range R t -> exception (cast R T t) = true) /\
  (forall v, cast R T t = Ok v -> v = t /\ in_range R v).
Proof.
  intros Ht. split; [apply cast_in_range, Ht |].
  split; [apply cast_err, Ht |].
  intros v H. destruct (cast_ok_inv R T t v Ht H) as [-> Hr]. auto.
Qed.

Lemma cast_ok_iff_representable_witness :
  cast I8 U16 127 = Ok 127 /\ exception (cast I8 U16 128) = true.
Proof.
  assert (R1 : in_range U16 127) by closed.
  assert (R2 : in_range U16 128) by closed.
  split.
  - apply (proj1 (cast_ok_iff_representable I8 U16 127 R1)). closed.
  - apply (proj1 (proj2 (cast_ok_iff_representable I8 U16 128 R2))).
    intros [_ H]. vm_compute in H. apply H. reflexivity.
Defined.

(** X2.  The error of a failed [cast<R>(t)] tells the side on which [t]
    leaves [R]: [positive_overflow_error] above [R::max]; below [R::min]
    a [negative_overflow_error] for a signed [R] and a [domain_error] for
    an unsigned one.  A cast from an unsigned type can only fail with
    [positive_overflow_error]. *)
Theorem cast_error_kinds R T t :
  in_range T t ->
  (numeric_limits.max R < t ->
   exists m, cast R T t = Err positive_overflow_error m) /\
  (t < numeric_limits.min R -> is_signed R = true ->
   exists m, cast R T t = Err negative_overflow_error m) /\
  (t < numeric_limits.min R -> is_signed R = false ->
   exists m, cast R T t = Err domain_error m) /\
  (is_signed T = false ->
   forall k m, cast R T t = Err k m -> k = positive_overflow_error).
Proof.
  intros Ht. split; [apply cast_kind_above, Ht |].
  split; [| split].
  - intros H ER. destruct (cast_kind_below R T t Ht H) as [m E].
    rewrite ER in E. eauto.
  - intros H ER. destruct (cast_kind_below R T t Ht H) as [m E].
    rewrite ER in E. eauto.
  - intros ET k m E.
    destruct (Z.le_gt_cases t (numeric_limits.max R)) as [Hle | Hgt].
    + rewrite cast_in_range in E; [discriminate E | exact Ht |].
      split; [| exact Hle]. pose proof (min_nonpos R).
      destruct Ht as [Ht _]. rewrite (min_unsigned T ET) in Ht. lia.
    + destruct (cast_kind_above R T t Ht Hgt) as [m' E'].
      congruence.
Qed.

Lemma cast_error_kinds_witness :
  (exists m, cast I8 I16 200 = Err positive_overflow_error m) /\
  (exists m, cast I8 I16 (-200) = Err negative_overflow_error m) /\
  (exists m, cast U16 I8 (-1) = Err domain_error m).
Proof.
  assert (R1 : in_range I16 200) by closed.
  assert (R2 : in_range I16 (-200)) by closed.
  assert (R3 : in_range I8 (-1)) by closed.
  split; [| split].
  - apply (proj1 (cast_error_kinds I8 I16 200 R1)). reflexivity.
  - apply (proj1 (proj2 (cast_error_kinds I8 I16 (-200) R2)));
      reflexivity.
  - apply (proj1 (proj2 (proj2 (cast_error_kinds U16 I8 (-1) R3))));
      reflexivity.
Defined.

(** ** [add], [subtract], [multiply] on operands that [R] holds or not *)

Lemma in_range_dec R z : {in_range R z} + {~ in_range R z}.
Proof.
  unfold in_range.
  destruct (Z_le_dec (numeric_limits.min R) z);
    destruct (Z_le_dec z (numeric_limits.max R)); (left; lia) || (right; lia).
Qed.

Lemma cast_not_in_range R T t :
  in_range T t -> ~ in_range R t ->
  exists k m, cast R T t = Err k m.
Proof.
  intros Ht H. pose proof (cast_err R T t Ht H) as E.
  destruct (cast R T t) as [v | k m]; [discriminate E | eauto].
Qed.

Lemma add_representable R T U t u :
  in_range T t -> in_range U u -> in_range R t -> in_range R u ->
  add R T U t u =
  Some (if t + u >? numeric_limits.max R
        then Err positive_overflow_error "addition result too large"
        else if t + u <? numeric_limits.min R
        then Err negative_overflow_error "addition result too low"
        else Ok (t + u)).
Proof.
  intros Ht Hu Rt Ru. unfold add.
  rewrite !cast_in_range by assumption. apply add_impl_spec; assumption.
Qed.

Lemma subtract_representable R T U t u :
  in_range T t -> in_range U u -> in_range R t -> in_range R u ->
  subtract R T U t u =
  Some (if is_signed R
        then (if t - u <? numeric_limits.min R
              then Err positive_overflow_error
                     "subtraction result overflows result type"
              else if t - u >? numeric_limits.max R
              then Err negative_overflow_error
                     "subtraction result overflows result type"
              else Ok (t - u))
        else (if t <? u
              then Err range_error "subtraction result cannot be negative"
              else Ok (t - u))).
Proof.
  intros Ht Hu Rt Ru. unfold subtract.
  rewrite !cast_in_range, !static_cast_id by assumption.
  apply subtract_impl_spec; assumption.
Qed.

Lemma multiply_representable R T U t u :
  in_range T t -> in_range U u -> in_range R t -> in_range R u ->
  multiply R T U t u =
  Some (if t * u >? numeric_limits.max R
        then Err positive_overflow_error "multiplication overflow"
        else if t * u <? numeric_limits.min R
        then Err negative_overflow_error "multiplication overflow"
        else Ok (t * u)).
Proof.
  intros Ht Hu Rt Ru. unfold multiply.
  rewrite !cast_in_range, !static_cast_id by assumption.
  apply multiply_impl_spec; assumption.
Qed.

Lemma arith_operand_t R T U t u :
  in_range T t -> ~ in_range R t ->
  add R T U t u = Some (cast R T t) /\
  subtract R T U t u = Some (cast R T t) /\
  multiply R T U t u = Some (cast R T t).
Proof.
  intros Ht H. destruct (cast_not_in_range R T t Ht H) as (k & m & E).
  unfold add, subtract, multiply. rewrite E. auto.
Qed.

Lemma arith_operand_u R T U t u :
  in_range T t -> in_range U u -> in_range R t -> ~ in_range R u ->
  add R T U t u = Some (cast R U u) /\
  subtract R T U t u = Some (cast R U u) /\
  multiply R T U t u = Some (cast R U u).
Proof.
  intros Ht Hu Rt H. destruct (cast_not_in_range R U u Hu H) as (k & m & E).
  unfold add, subtract, multiply.
  rewrite (cast_in_range R T t Ht Rt), E. auto.
Qed.

(** X3.  On operands that [R] can represent, [add] is never undefined
    and fails exactly when the sum leaves [R]: it is [Ok (t + u)] when
    the sum is representable, [positive_overflow_error] when the sum is
    above [R::max] and [negative_overflow_error] when it is below
    [R::min]. *)
Theorem add_fails_iff_sum_unrepresentable R T U t u :
  in_range T t -> in_range U u -> in_range R t -> in_range R u ->
  (in_range R (t + u) -> add R T U t u = Some (Ok (t + u))) /\
  (numeric_limits.max R < t + u ->
   add R T U t u =
   Some (Err positive_overflow_error "addition result too large")) /\
  (t + u < numeric_limits.min R ->
   add R T U t u =
   Some (Err negative_overflow_error "addition result too low")).
Proof.
  intros Ht Hu Rt Ru. rewrite add_representable by assumption.
  pose proof (min_nonpos R). pose proof (max_pos R).
  unfold in_range. repeat split; intros; repeat native_step;
    try reflexivity; lia.
Qed.

Lemma add_fails_iff_sum_unrepresentable_witness :
  add U8 I32 I32 200 55 = Some (Ok (200 + 55)) /\
  add U8 I32 I32 200 56 =
  Some (Err positive_overflow_error "addition result too large") /\
  add I8 I32 I32 (-100) (-29) =
  Some (Err negative_overflow_error "addition result too low").
Proof.
  assert (R1 : in_range I32 200) by (vm_compute; split; discriminate).
  assert (R2 : in_range I32 55) by (vm_compute; split; discriminate).
  assert (R3 : in_range I32 56) by (vm_compute; split; discriminate).
  assert (R4 : in_range I32 (-100)) by (vm_compute; split; discriminate).
  assert (R5 : in_range I32 (-29)) by (vm_compute; split; discriminate).
  split; [| split].
  - apply (add_fails_iff_sum_unrepresentable U8 I32 I32 200 55 R1 R2);
      vm_compute; split; discriminate.
  - apply (add_fails_iff_sum_unrepresentable U8 I32 I32 200 56 R1 R3);
      [vm_compute; split; discriminate .. | reflexivity].
  - apply (add_fails_iff_sum_unrepresentable I8 I32 I32 (-100) (-29) R4 R5);
      [vm_compute; split; discriminate .. | reflexivity].
Defined.

(** X4.  [add], [subtract] and [multiply] return the error of the first
    operand whose cast into [R] fails: the error of [cast<R>(t)] when [R]
    cannot represent [t], whatever [u] is, and the error of [cast<R>(u)]
    when it can represent [t] but not [u].  The exact result may well be
    representable: [add<u8>(300, -100)] is an error. *)
Theorem unrepresentable_operand_error R T U t u :
  in_range T t -> in_range U u ->
  (~ in_range R t ->
   exception (cast R T t) = true /\
   add R T U t u = Some (cast R T t) /\
   subtract R T U t u = Some (cast R T t) /\
   multiply R T U t u = Some (cast R T t)) /\
  (in_range R t -> ~ in_range R u ->
   exception (cast R U u) = true /\
   add R T U t u = Some (cast R U u) /\
   subtract R T U t u = Some (cast R U u) /\
   multiply R T U t u = Some (cast R U u)).
Proof.
  intros Ht Hu. split.
  - intros H. split; [apply cast_err; assumption |].
    apply arith_operand_t; assumption.
  - intros Rt H. split; [apply cast_err; assumption |].
    apply arith_operand_u; assumption.
Qed.

Lemma unrepresentable_operand_error_witness :
  add U8 I32 I32 300 (-100) =
  Some (Err positive_overflow_error "converted signed value too large") /\
  multiply U8 I32 I32 0 (-1) =
  Some (Err domain_error "converted negative value to unsigned").
Proof.
  assert (R1 : in_range I32 300) by (vm_compute; split; discriminate).
  assert (R2 : in_range I32 (-100)) by (vm_compute; split; discriminate).
  assert (R3 : in_range I32 0) by (vm_compute; split; discriminate).
  assert (R4 : in_range I32 (-1)) by (vm_compute; split; discriminate).
  split.
  - refine (proj1 (proj2 (proj1
      (unrepresentable_operand_error U8 I32 I32 300 (-100) R1 R2) _))).
    intros [_ H]. vm_compute in H. apply H. reflexivity.
  - refine (proj2 (proj2 (proj2 (proj2
      (unrepresentable_operand_error U8 I32 I32 0 (-1) R3 R4) _ _)))).
    + vm_compute; split; discriminate.
    + intros [H _]. vm_compute in H. apply H. reflexivity.
Defined.

(** X5.  [add] and [multiply] are commutative, operand types exchanged
    with the operands, as soon as [R] can represent one of the operands
    (when it can represent neither, each order reports the error of its
    own first operand). *)
Theorem add_multiply_commute R T U t u :
  in_range T t -> in_range U u ->
  in_range R t \/ in_range R u ->
  add R T U t u = add R U T u t /\
  multiply R T U t u = multiply R U T u t.
Proof.
  intros Ht Hu H.
  destruct (in_range_dec R t) as [Rt | Rt], (in_range_dec R u) as [Ru | Ru].
  - rewrite !add_representable, !multiply_representable by assumption.
    rewrite (Z.add_comm u t), (Z.mul_comm u t). auto.
  - destruct (arith_operand_u R T U t u Ht Hu Rt Ru) as (-> & _ & ->).
    destruct (arith_operand_t R U T u t Hu Ru) as (-> & _ & ->). auto.
  - destruct (arith_operand_t R T U t u Ht Rt) as (-> & _ & ->).
    destruct (arith_operand_u R U T u t Hu Ht Ru Rt) as (-> & _ & ->). auto.
  - tauto.
Qed.

Lemma add_multiply_commute_witness :
  add U8 I32 I16 300 5 = add U8 I16 I32 5 300 /\
  multiply U8 I32 I16 300 5 = multiply U8 I16 I32 5 300.
Proof.
  apply (add_multiply_commute U8 I32 I16 300 5).
  - vm_compute; split; discriminate.
  - vm_compute; split; discriminate.
  - right. vm_compute; split; discriminate.
Defined.

(** without the hypothesis the two orders can report different errors *)
Example add_order_of_errors :
  add U8 I32 I32 300 (-1) =
  Some (Err positive_overflow_error "converted signed value too large") /\
  add U8 I32 I32 (-1) 300 =
  Some (Err domain_error "converted negative value to unsigned").
Proof. split; vm_compute; reflexivity. Qed.

(** X6.  Identity elements: adding [0], subtracting [0] and multiplying
    by [1] give exactly the result of [cast<R>(t)], error included, and
    dividing a [t] that [R] can represent by [1] gives [Ok t]. *)
Theorem identity_elements R T U t :
  in_range T t ->
  add R T U t 0 = Some (cast R T t) /\
  subtract R T U t 0 = Some (cast R T t) /\
  multiply R T U t 1 = Some (cast R T t) /\
  (in_range R t -> divide R T U t 1 = Some (Ok t)).
Proof.
  intros Ht.
  assert (H0 : in_range U 0) by apply in_range_zero.
  assert (H1 : in_range U 1) by (destruct U; range).
  assert (R0 : in_range R 0) by apply in_range_zero.
  assert (R1 : in_range R 1) by (destruct R; range).
  destruct (in_range_dec R t) as [Rt | Rt].
  - rewrite add_representable, subtract_representable,
      multiply_representable, cast_in_range by assumption.
    rewrite Z.add_0_r, Z.sub_0_r, Z.mul_1_r.
    pose proof Rt as [Hlo Hhi].
    assert (H : is_signed R = false -> 0 <= t).
    { intros E. rewrite (min_unsigned R E) in Hlo. exact Hlo. }
    split; [| split; [| split]].
    + repeat native_step; try reflexivity; lia.
    + destruct (is_signed R) eqn:ER; repeat native_step; try reflexivity;
        lia.
    + repeat native_step; try reflexivity; lia.
    + intros _. rewrite divide_spec by assumption.
      rewrite !cast_in_range by assumption. cbn [exception orb].
      change (1 =? 0) with false. change (1 =? -1) with false.
      rewrite andb_false_r, Z.quot_1_r. reflexivity.
  - destruct (arith_operand_t R T U t 0 Ht Rt) as (-> & -> & _).
    destruct (arith_operand_t R T U t 1 Ht Rt) as (_ & _ & ->).
    repeat split; try reflexivity. intros H. contradiction.
Qed.

Lemma identity_elements_witness :
  add I8 I16 U8 (-5) 0 = Some (cast I8 I16 (-5)) /\
  multiply I8 I16 U8 300 1 = Some (cast I8 I16 300) /\
  divide I8 I16 U8 (-5) 1 = Some (Ok (-5)).
Proof.
  assert (R1 : in_range I16 (-5)) by (vm_compute; split; discriminate).
  assert (R2 : in_range I16 300) by (vm_compute; split; discriminate).
  split; [| split].
  - exact (proj1 (identity_elements I8 I16 U8 (-5) R1)).
  - exact (proj1 (proj2 (proj2 (identity_elements I8 I16 U8 300 R2)))).
  - apply (proj2 (proj2 (proj2 (identity_elements I8 I16 U8 (-5) R1)))).
    vm_compute; split; discriminate.
Defined.

(** X7.  On operands that [R] can represent, [subtract] is never
    undefined and fails exactly when the difference leaves [R]: it is
    [Ok (t - u)] when the difference is representable and an error
    otherwise; for an unsigned [R] the error of [t < u] is
    [range_error]. *)
Theorem subtract_fails_iff_difference_unrepresentable R T U t u :
  in_range T t -> in_range U u -> in_range R t -> in_range R u ->
  (in_range R (t - u) -> subtract R T U t u = Some (Ok (t - u))) /\
  (~ in_range R (t - u) ->
   exists k m, subtract R T U t u = Some (Err k m)) /\
  (is_signed R = false -> t < u ->
   subtract R T U t u =
   Some (Err range_error "subtraction result cannot be negative")).
Proof.
  intros Ht Hu Rt Ru. rewrite subtract_representable by assumption.
  pose proof (min_nonpos R). pose proof (max_pos R).
  assert (Hns : is_signed R = false -> 0 <= t /\ 0 <= u).
  { intros E. destruct Rt as [Rt _], Ru as [Ru _].
    rewrite (min_unsigned R E) in *. lia. }
  unfold in_range. split; [| split].
  - intros Hr. destruct (is_signed R) eqn:ER; repeat native_step;
      try reflexivity; try lia.
    rewrite (min_unsigned R ER) in Hr. lia.
  - intros Hr. destruct (is_signed R) eqn:ER; repeat native_step;
      eauto; try lia.
    exfalso. apply Hr. rewrite (min_unsigned R ER).
    destruct (Hns eq_refl). destruct Rt. lia.
  - intros -> Hlt. destruct (Z.ltb_spec t u); [reflexivity | lia].
Qed.

Lemma subtract_fails_iff_difference_unrepresentable_witness :
  subtract U8 I32 I32 5 3 = Some (Ok (5 - 3)) /\
  subtract U8 I32 I32 3 5 =
  Some (Err range_error "subtraction result cannot be negative").
Proof.
  assert (R1 : in_range I32 5) by (vm_compute; split; discriminate).
  assert (R2 : in_range I32 3) by (vm_compute; split; discriminate).
  split.
  - apply (subtract_fails_iff_difference_unrepresentable
             U8 I32 I32 5 3 R1 R2); vm_compute; split; discriminate.
  - apply (subtract_fails_iff_difference_unrepresentable
             U8 I32 I32 3 5 R2 R1);
      [vm_compute; split; discriminate .. | reflexivity | reflexivity].
Defined.

(** X8.  [add] and [subtract] undo each other: if [add<R>(t, u)] is
    [Ok v] then [subtract<R>(v, u)] is [Ok t], and if [subtract<R>(t, u)]
    is [Ok v] then [add<R>(v, u)] is [Ok t]; the second operation cannot
    fail. *)
Theorem add_subtract_inverse R T U t u v :
  in_range T t -> in_range U u ->
  (add R T U t u = Some (Ok v) -> subtract R R U v u = Some (Ok t)) /\
  (subtract R T U t u = Some (Ok v) -> add R R U v u = Some (Ok t)).
Proof.
  intros Ht Hu.
  destruct (in_range_dec R t) as [Rt | Rt].
  2:{ destruct (arith_operand_t R T U t u Ht Rt) as (-> & -> & _).
      destruct (cast_not_in_range R T t Ht Rt) as (k & m & ->).
      split; discriminate. }
  destruct (in_range_dec R u) as [Ru | Ru].
  2:{ destruct (arith_operand_u R T U t u Ht Hu Rt Ru) as (-> & -> & _).
      destruct (cast_not_in_range R U u Hu Ru) as (k & m & ->).
      split; discriminate. }
  pose proof (min_nonpos R). pose proof (max_pos R).
  assert (Hns : is_signed R = false -> 0 <= t /\ 0 <= u).
  { intros E. destruct Rt as [Rt _], Ru as [Ru _].
    rewrite (min_unsigned R E) in *. lia. }
  rewrite (add_representable R T U t u),
    (subtract_representable R T U t u) by assumption.
  split.
  - intros E.
    assert (Hv : v = t + u /\ in_range R (t + u)).
    { revert E. unfold in_range. repeat native_step; try discriminate.
      intros [= <-]. lia. }
    destruct Hv as [-> Rv].
    rewrite subtract_representable by assumption.
    replace (t + u - u) with t by lia. destruct Rt.
    destruct (is_signed R) eqn:ER; repeat native_step; try reflexivity;
      lia.
  - intros E.
    assert (Hv : v = t - u /\ in_range R (t - u)).
    { revert E. unfold in_range.
      destruct (is_signed R) eqn:ER; repeat native_step; try discriminate;
        intros [= <-]; try lia.
      rewrite (min_unsigned R ER). destruct Rt. lia. }
    destruct Hv as [-> Rv].
    rewrite add_representable by assumption.
    replace (t - u + u) with t by lia. destruct Rt.
    repeat native_step; try reflexivity; lia.
Qed.

Lemma add_subtract_inverse_witness :
  subtract I8 I8 I32 127 27 = Some (Ok 100) /\
  add U8 U8 I32 0 200 = Some (Ok 200).
Proof.
  assert (R1 : in_range I32 100) by (vm_compute; split; discriminate).
  assert (R2 : in_range I32 27) by (vm_compute; split; discriminate).
  assert (R3 : in_range I32 200) by (vm_compute; split; discriminate).
  split.
  - apply (proj1 (add_subtract_inverse I8 I32 I32 100 27 127 R1 R2)).
    reflexivity.
  - apply (proj2 (add_subtract_inverse U8 I32 I32 200 200 0 R3 R3)).
    reflexivity.
Defined.

(** X9.  On operands that [R] can represent, [multiply] is never
    undefined and fails exactly when the product leaves [R], on the wide
    path ([R] of at most 32 bits, product taken in 64 bits) and on the
    narrow path (64-bit [R], checks by division) alike: [Ok (t * u)],
    [positive_overflow_error] above [R::max], [negative_overflow_error]
    below [R::min]. *)
Theorem multiply_fails_iff_product_unrepresentable R T U t u :
  in_range T t -> in_range U u -> in_range R t -> in_range R u ->
  (in_range R (t * u) -> multiply R T U t u = Some (Ok (t * u))) /\
  (numeric_limits.max R < t * u ->
   multiply R T U t u =
   Some (Err positive_overflow_error "multiplication overflow")) /\
  (t * u < numeric_limits.min R ->
   multiply R T U t u =
   Some (Err negative_overflow_error "multiplication overflow")).
Proof.
  intros Ht Hu Rt Ru. rewrite multiply_representable by assumption.
  pose proof (min_nonpos R). pose proof (max_pos R).
  unfold in_range. repeat split; intros; repeat native_step;
    try reflexivity; lia.
Qed.

Lemma multiply_fails_iff_product_unrepresentable_witness :
  multiply I64 I64 I64 3037000499 3037000499 =
  Some (Ok (3037000499 * 3037000499)) /\
  multiply I64 I64 I64 3037000500 3037000500 =
  Some (Err positive_overflow_error "multiplication overflow") /\
  multiply I8 I32 I32 (-128) (-1) =
  Some (Err positive_overflow_error "multiplication overflow") /\
  multiply I64 I64 I64 (-9223372036854775808) 2 =
  Some (Err negative_overflow_error "multiplication overflow").
Proof.
  assert (R1 : in_range I64 3037000499) by (vm_compute; split; discriminate).
  assert (R2 : in_range I64 3037000500) by (vm_compute; split; discriminate).
  assert (R3 : in_range I32 (-128)) by (vm_compute; split; discriminate).
  assert (R4 : in_range I32 (-1)) by (vm_compute; split; discriminate).
  assert (R5 : in_range I64 (-9223372036854775808))
    by (vm_compute; split; discriminate).
  assert (R6 : in_range I64 2) by (vm_compute; split; discriminate).
  split; [| split; [| split]].
  - apply (multiply_fails_iff_product_unrepresentable
             I64 I64 I64 3037000499 3037000499 R1 R1);
      vm_compute; split; discriminate.
  - apply (multiply_fails_iff_product_unrepresentable
             I64 I64 I64 3037000500 3037000500 R2 R2);
      [vm_compute; split; discriminate .. | reflexivity].
  - apply (multiply_fails_iff_product_unrepresentable
             I8 I32 I32 (-128) (-1) R3 R4);
      [vm_compute; split; discriminate .. | reflexivity].
  - apply (multiply_fails_iff_product_unrepresentable
             I64 I64 I64 (-9223372036854775808) 2 R5 R6);
      [vm_compute; split; discriminate .. | reflexivity].
Defined.

(** X10.  [multiply<R>(t, 0)] is [Ok 0] when [R] can represent [t], also
    for [t = R::min]; when it cannot, the product by zero is the error of
    [cast<R>(t)]. *)
Theorem multiply_by_zero R T U t :
  in_range T t ->
  (in_range R t -> multiply R T U t 0 = Some (Ok 0)) /\
  (~ in_range R t ->
   multiply R T U t 0 = Some (cast R T t) /\
   exception (cast R T t) = true).
Proof.
  intros Ht.
  assert (H0 : in_range U 0) by apply in_range_zero.
  assert (R0 : in_range R 0) by apply in_range_zero.
  pose proof (min_nonpos R). pose proof (max_pos R).
  split.
  - intros Rt. rewrite multiply_representable by assumption.
    rewrite Z.mul_0_r. repeat native_step; try reflexivity; lia.
  - intros Rt. split; [| apply cast_err; assumption].
    apply (arith_operand_t R T U t 0 Ht Rt).
Qed.

Lemma multiply_by_zero_witness :
  multiply I64 I64 I32 (-9223372036854775808) 0 = Some (Ok 0) /\
  multiply U8 I32 I32 300 0 =
  Some (Err positive_overflow_error "converted signed value too large").
Proof.
  assert (R1 : in_range I64 (-9223372036854775808))
    by (vm_compute; split; discriminate).
  assert (R2 : in_range I32 300) by (vm_compute; split; discriminate).
  split.
  - apply (proj1 (multiply_by_zero I64 I64 I32 _ R1)). exact R1.
  - refine (proj1 (proj2 (multiply_by_zero U8 I32 I32 300 R2) _)).
    intros [_ H]. vm_compute in H. apply H. reflexivity.
Defined.

(** ** [divide] and [modulus] *)

Lemma rem_in_range R t d :
  d <> 0 -> in_range R t -> in_range R (Z.rem t d).
Proof.
  intros Hd [Hlo Hhi]. pose proof (min_nonpos R). pose proof (max_pos R).
  pose proof (Z.rem_abs t d Hd) as Ha.
  pose proof (Z.rem_le (Z.abs t) (Z.abs d) ltac:(lia) ltac:(lia)).
  pose proof (Z.rem_nonneg t d Hd). pose proof (Z.rem_nonpos t d Hd).
  unfold in_range. lia.
Qed.

(** X11.  Quotient and remainder fit together: when [divide<R>(t, u)]
    is [Ok q] and [modulus<R>(t, u)] is [Ok r], and the dividend is not
    converted to an unsigned type by the usual arithmetic conversions,
    then [q * u + r = t] and [|r| < |u|]. *)
Theorem divide_modulus_identity R T U t u q r :
  in_range T t -> in_range U u ->
  0 <= t \/ is_signed (Native.common_type T (make_unsigned U)) = true ->
  divide R T U t u = Some (Ok q) ->
  modulus R T U t u = Some (Ok r) ->
  q * u + r = t /\ Z.abs r < Z.abs u.
Proof.
  intros Ht Hu Hc Hq Hr.
  rewrite divide_spec in Hq by assumption.
  destruct (Z.eqb_spec u 0) as [| H0]; [discriminate |].
  destruct (cast R T t) as [tv |] eqn:Et; [| discriminate].
  destruct (cast_ok_inv _ _ _ _ Ht Et) as [_ Rt].
  assert (Eq : q = Z.quot t u).
  { cbn [exception orb] in Hq.
    destruct (exception (cast R U u)); [discriminate |].
    destruct (is_signed R && _ && _); congruence. }
  rewrite modulus_spec in Hr by assumption.
  destruct (Z.eqb_spec u 0); [contradiction |].
  rewrite (static_cast_id _ t) in Hr by (apply in_range_common_l; assumption).
  rewrite static_cast_id in Hr by (apply rem_in_range; [lia | exact Rt]).
  injection Hr as <-. subst q.
  rewrite Z.rem_abs_r by assumption.
  split.
  - pose proof (Z.quot_rem' t u). lia.
  - apply Z.rem_bound_abs. assumption.
Qed.

Lemma divide_modulus_identity_witness :
  -3 * 2 + -1 = -7 /\ Z.abs (-1) < Z.abs 2.
Proof.
  apply (divide_modulus_identity I16 I16 I16 (-7) 2 (-3) (-1)).
  - vm_compute; split; discriminate.
  - vm_compute; split; discriminate.
  - right. reflexivity.
  - reflexivity.
  - reflexivity.
Defined.

(** X12.  For a non-negative dividend that [R] can represent and a
    divisor [u <> 0], [modulus] is [Ok (t mod |u|)], a value between [0]
    and [|u| - 1]. *)
Theorem modulus_nonnegative_dividend R T U t u :
  in_range T t -> in_range U u -> u <> 0 -> 0 <= t -> in_range R t ->
  modulus R T U t u = Some (Ok (t mod Z.abs u)) /\
  0 <= t mod Z.abs u < Z.abs u.
Proof.
  intros Ht Hu H0 Hpos Rt.
  rewrite modulus_spec by assumption.
  destruct (Z.eqb_spec u 0); [contradiction |].
  rewrite (static_cast_id _ t) by (apply in_range_common_l; auto).
  rewrite static_cast_id by (apply rem_in_range; [lia | exact Rt]).
  rewrite Z.rem_mod_nonneg by lia.
  split; [reflexivity | apply Z.mod_pos_bound; lia].
Qed.

Lemma modulus_nonnegative_dividend_witness :
  modulus U8 U32 I32 200 (-7) = Some (Ok (200 mod Z.abs (-7))).
Proof.
  apply (modulus_nonnegative_dividend U8 U32 I32 200 (-7)).
  - vm_compute; split; discriminate.
  - vm_compute; split; discriminate.
  - discriminate.
  - discriminate.
  - vm_compute; split; discriminate.
Defined.

(** X13.  [modulus] does not see the sign of the divisor:
    [modulus<R>(t, -u) = modulus<R>(t, u)] whenever [-u] is a value of
    [U]. *)
Theorem modulus_divisor_sign R T U t u :
  in_range U u -> in_range U (- u) ->
  modulus R T U t (- u) = modulus R T U t u.
Proof.
  intros Hu Hn. rewrite !modulus_spec by assumption.
  rewrite Z.abs_opp.
  destruct (Z.eqb_spec u 0), (Z.eqb_spec (- u) 0); try reflexivity; lia.
Qed.

Lemma modulus_divisor_sign_witness :
  modulus I16 I16 I16 (-7) (- 3) = modulus I16 I16 I16 (-7) 3.
Proof.
  apply (modulus_divisor_sign I16 I16 I16 (-7) 3);
    vm_compute; split; discriminate.
Defined.

Lemma unsigned_common_of_negative T U t :
  in_range T t -> t < 0 ->
  is_signed (Native.common_type T U) = false ->
  static_cast (Native.common_type T U) t =
  t + 2 ^ width (Native.common_type T U).
Proof.
  intros Ht Hneg HC. unfold static_cast. rewrite HC.
  destruct T, U; try discriminate HC; limits;
    match goal with
    | |- ?a mod ?m = _ =>
        rewrite <- (Z.mod_add a 1 m) by lia; apply Z.mod_small; range
    end.
Qed.

(** X14.  [abs(u)] has an unsigned type, so when the common type [C] of
    [T] and [make_unsigned<U>] is unsigned, a negative dividend [t] is
    first converted to [t + 2 ^ width C]: for [u <> 0], [modulus] then
    returns [Ok] of [(t + 2 ^ width C) mod |u|] converted to [R]. *)
Theorem modulus_negative_dividend_unsigned R T U t u :
  in_range T t -> in_range U u -> u <> 0 -> t < 0 ->
  is_signed (Native.common_type T (make_unsigned U)) = false ->
  modulus R T U t u =
  Some (Ok (static_cast R
              ((t + 2 ^ width (Native.common_type T (make_unsigned U)))
               mod Z.abs u))).
Proof.
  intros Ht Hu H0 Hneg HC.
  rewrite modulus_spec by assumption.
  destruct (Z.eqb_spec u 0); [contradiction |].
  rewrite unsigned_common_of_negative by assumption.
  rewrite Z.rem_mod_nonneg; [reflexivity | | lia].
  pose proof (static_cast_in_range
                (Native.common_type T (make_unsigned U)) t) as [Hlo _].
  rewrite unsigned_common_of_negative in Hlo by assumption.
  rewrite (min_unsigned _ HC) in Hlo. exact Hlo.
Qed.

Lemma modulus_negative_dividend_unsigned_witness :
  modulus I32 I32 I32 (-7) 3 =
  Some (Ok (static_cast I32 ((-7 + 2 ^ 32) mod Z.abs 3))).
Proof.
  apply (modulus_negative_dividend_unsigned I32 I32 I32 (-7) 3).
  - vm_compute; split; discriminate.
  - vm_compute; split; discriminate.
  - discriminate.
  - reflexivity.
  - reflexivity.
Defined.

(** X15.  [abs<Tx>(t)] is never undefined and returns the absolute value
    of [t], a value of [make_unsigned<Tx>], for every [t] of [Tx],
    [Tx::min] included. *)
Theorem abs_is_absolute_value U u :
  in_range U u ->
  abs U u = Some (Z.abs u) /\ in_range (make_unsigned U) (Z.abs u).
Proof.
  intros Hu. split; [apply abs_spec, Hu | apply abs_in_range, Hu].
Qed.

Lemma abs_is_absolute_value_witness :
  abs I64 (-9223372036854775808) = Some (Z.abs (-9223372036854775808)).
Proof.
  apply (abs_is_absolute_value I64 (-9223372036854775808)).
  vm_compute; split; discriminate.
Defined.

(** ** Shifts *)

Lemma significant_bits_lower x :
  0 < x -> 2 ^ (utility.significant_bits x - 1) <= x.
Proof.
  intros H. unfold utility.significant_bits.
  destruct (Z.eqb_spec x 0); [lia |].
  rewrite Z.abs_eq by lia.
  replace (Z.log2 x + 1 - 1) with (Z.log2 x) by lia.
  apply Z.log2_spec, H.
Qed.

(** a conversion through a type at least as wide is not seen *)
Lemma static_cast_through R P x :
  width R <= width P -> static_cast R (static_cast P x) = static_cast R x.
Proof.
  intros Hw.
  assert (Hk : exists k, static_cast P x = x + k * 2 ^ width R).
  { assert (Hp : exists q, static_cast P x = x + q * 2 ^ width P).
    { unfold static_cast. destruct (is_signed P).
      - exists (- ((x + 2 ^ (width P - 1)) / 2 ^ width P)).
        pose proof (Z.div_mod (x + 2 ^ (width P - 1)) (2 ^ width P)
                      ltac:(destruct P; limits; lia)). lia.
      - exists (- (x / 2 ^ width P)).
        pose proof (Z.div_mod x (2 ^ width P)
                      ltac:(destruct P; limits; lia)). lia. }
    destruct Hp as [q Hq]. exists (q * 2 ^ (width P - width R)).
    rewrite Hq, <- Z.mul_assoc, <- Z.pow_add_r.
    - do 3 f_equal. lia.
    - lia.
    - destruct R; limits; lia. }
  destruct Hk as [k ->]. unfold static_cast.
  assert (H2 : 2 ^ width R <> 0) by (destruct R; limits; lia).
  destruct (is_signed R).
  - replace (x + k * 2 ^ width R + 2 ^ (width R - 1))
      with (x + 2 ^ (width R - 1) + k * 2 ^ width R) by lia.
    rewrite Z.mod_add by exact H2. reflexivity.
  - rewrite Z.mod_add by exact H2. reflexivity.
Qed.

(** the check of the unsigned left shift is exact: it fails exactly when
    the shifted value leaves [R] *)
Lemma shift_check_exact R t u :
  0 < t -> in_range R t -> 0 <= u ->
  (u >? static_cast U32
          (numeric_limits.digits R - utility.significant_bits t)) =
  (t * 2 ^ u >? numeric_limits.max R).
Proof.
  intros Ht Rt Hu.
  pose proof (digits_bounds R) as Hd.
  pose proof (significant_bits_lower t Ht) as Hlo.
  pose proof (significant_bits_upper t ltac:(lia)) as Hhi.
  pose proof (significant_bits_nonneg t) as Hs.
  destruct Rt as [_ Rt]. unfold numeric_limits.max in *.
  remember (utility.significant_bits t) as s eqn:Es.
  remember (numeric_limits.digits R) as d eqn:Ed.
  assert (Hs1 : 1 <= s).
  { destruct (Z.eq_dec s 0) as [E0 |]; [| lia].
    rewrite E0 in Hhi. change (2 ^ 0) with 1 in Hhi. lia. }
  assert (Hsd : s <= d).
  { destruct (Z_le_gt_dec s d) as [| Hgt]; [assumption | exfalso].
    pose proof (Z.pow_le_mono_r 2 d (s - 1) ltac:(lia) ltac:(lia)). lia. }
  rewrite (static_cast_id U32) by range.
  destruct (Z.gtb_spec u (d - s));
    destruct (Z.gtb_spec (t * 2 ^ u) (2 ^ d - 1));
    try reflexivity; exfalso.
  - assert (H1 : 2 ^ d <= 2 ^ (s - 1 + u))
      by (apply Z.pow_le_mono_r; lia).
    rewrite Z.pow_add_r in H1 by lia.
    pose proof (Z.pow_pos_nonneg 2 u ltac:(lia) Hu). nia.
  - assert (H1 : 2 ^ (s + u) <= 2 ^ d)
      by (apply Z.pow_le_mono_r; lia).
    rewrite Z.pow_add_r in H1 by lia.
    pose proof (Z.pow_pos_nonneg 2 u ltac:(lia) Hu). nia.
Qed.

(** the native shift, when the promoted operand type is as wide as [R]:
    never undefined, and exact once converted to [R] *)
Lemma shl_then_cast R T U t u :
  0 < t -> 0 < u -> in_range U u ->
  in_range T t -> in_range R (t * 2 ^ u) ->
  width R <= width (Native.promote T) ->
  match Native.shl T U t u with
  | Some s => Some (Ok (static_cast R s))
  | None => None
  end = Some (Ok (t * 2 ^ u)).
Proof.
  intros Ht Hu HU HT HR Hw.
  pose proof (digits_bounds R) as Hd.
  assert (Hlt : t * 2 ^ u < 2 ^ width R).
  { apply in_range_nonneg_iff in HR; [| nia].
    pose proof (Z.pow_le_mono_r 2 (numeric_limits.digits R) (width R)
                  ltac:(lia) ltac:(lia)). lia. }
  assert (Hwp : 2 ^ width R <= 2 ^ width (Native.promote T))
    by (apply Z.pow_le_mono_r; lia).
  assert (Hu' : u < width R).
  { destruct (Z_lt_ge_dec u (width R)) as [| Hge]; [assumption | exfalso].
    pose proof (Z.pow_le_mono_r 2 (width R) u ltac:(lia) ltac:(lia)). nia. }
  unfold Native.shl.
  rewrite (static_cast_id _ t) by (apply in_range_promote, HT).
  rewrite (static_cast_id _ u) by (apply in_range_promote, HU).
  destruct (Z.ltb_spec u 0); [lia |]. cbv [orb].
  destruct (Z.leb_spec (width (Native.promote T)) u); [lia |].
  assert (E : static_cast R (static_cast (Native.promote T) (t * 2 ^ u)) =
              t * 2 ^ u).
  { rewrite static_cast_through by exact Hw. apply static_cast_id, HR. }
  destruct (is_signed (Native.promote T)).
  - destruct (Z.ltb_spec t 0); [lia |]. cbv [orb].
    destruct (Z.leb_spec (2 ^ width (Native.promote T)) (t * 2 ^ u));
      [lia |].
    rewrite E. reflexivity.
  - rewrite E. reflexivity.
Qed.

Lemma left_shift_representable R T U t u :
  in_range T t -> in_range U u -> in_range R t ->
  width R <= width (Native.promote (make_unsigned T)) ->
  left_shift R T U t u =
  Some (if u =? 0 then Ok t
        else if u <? 0
        then Err implementation_defined_behavior
               "shifting negative amount is implementation defined behavior"
        else if u >? numeric_limits.digits R
        then Err implementation_defined_behavior
               "shifting more bits than available is implementation defined behavior"
        else if t =? 0 then Ok 0
        else if t <? 0
        then Err undefined_behavior
               "shifting a negative value is undefined behavior"
        else if t * 2 ^ u >? numeric_limits.max R
        then Err undefined_behavior
               "shifting left more bits than available is undefined behavior"
        else Ok (t * 2 ^ u)).
Proof.
  intros Ht Hu Rt Hw. rewrite left_shift_spec by assumption.
  rewrite (static_cast_id R t) by exact Rt.
  destruct (Z.eqb_spec u 0); [reflexivity |].
  destruct (Z.ltb_spec u 0); [reflexivity |].
  destruct (Z.gtb_spec u (numeric_limits.digits R)); [reflexivity |].
  destruct (Z.eqb_spec t 0); [reflexivity |].
  destruct (Z.ltb_spec t 0); [reflexivity |].
  rewrite shift_check_exact by (try assumption; lia).
  destruct (Z.gtb_spec (t * 2 ^ u) (numeric_limits.max R)); [reflexivity |].
  apply shl_then_cast; try assumption; try lia.
  - apply in_range_make_unsigned; [assumption | lia].
  - pose proof (min_nonpos R). unfold in_range. nia.
Qed.

(** X16.  The check of [left_shift] is exact.  For a positive [t] that
    [R] can represent, a count [0 < u <= digits R], and an operand type
    whose promoted unsigned type is at least as wide as [R], the shift is
    never undefined and is [Ok (t * 2 ^ u)] when [R] can represent
    [t * 2 ^ u], and the [undefined_behavior] error when
    [t * 2 ^ u > R::max]. *)
Theorem left_shift_fails_iff_unrepresentable R T U t u :
  in_range T t -> in_range U u -> in_range R t ->
  width R <= width (Native.promote (make_unsigned T)) ->
  0 < t -> 0 < u <= numeric_limits.digits R ->
  (in_range R (t * 2 ^ u) -> left_shift R T U t u = Some (Ok (t * 2 ^ u))) /\
  (numeric_limits.max R < t * 2 ^ u ->
   left_shift R T U t u =
   Some (Err undefined_behavior
           "shifting left more bits than available is undefined behavior")).
Proof.
  intros Ht Hu Rt Hw Hpos Hcount.
  rewrite left_shift_representable by assumption.
  destruct (Z.eqb_spec u 0); [lia |].
  destruct (Z.ltb_spec u 0); [lia |].
  destruct (Z.gtb_spec u (numeric_limits.digits R)); [lia |].
  destruct (Z.eqb_spec t 0); [lia |].
  destruct (Z.ltb_spec t 0); [lia |].
  unfold in_range.
  destruct (Z.gtb_spec (t * 2 ^ u) (numeric_limits.max R));
    split; intros; try reflexivity; lia.
Qed.

Lemma left_shift_fails_iff_unrepresentable_witness :
  left_shift U32 U8 I32 255 24 = Some (Ok (255 * 2 ^ 24)) /\
  left_shift U16 I32 I32 255 9 =
  Some (Err undefined_behavior
          "shifting left more bits than available is undefined behavior").
Proof.
  split.
  - apply (left_shift_fails_iff_unrepresentable U32 U8 I32 255 24); closed.
  - apply (left_shift_fails_iff_unrepresentable U16 I32 I32 255 9); closed.
Defined.

(** X17.  A left shift is undone by the right shift: under the
    conditions of X16 on [t] and [T], if [left_shift<R>(t, u)] is [Ok v]
    then [right_shift<R>(v, u)], on [v] as a value of [R], is [Ok t]. *)
Theorem shift_round_trip R T U t u v :
  in_range T t -> in_range U u -> in_range R t ->
  width R <= width (Native.promote (make_unsigned T)) ->
  left_shift R T U t u = Some (Ok v) ->
  right_shift R R U v u = Some (Ok t).
Proof.
  intros Ht Hu Rt Hw. rewrite left_shift_representable by assumption.
  pose proof (digits_bounds R) as Hd.
  destruct (Z.eqb_spec u 0) as [-> | Hu0].
  { intros [= <-]. rewrite right_shift_spec by assumption.
    rewrite static_cast_id by assumption. reflexivity. }
  destruct (Z.ltb_spec u 0); [discriminate |].
  destruct (Z.gtb_spec u (numeric_limits.digits R)); [discriminate |].
  destruct (Z.eqb_spec t 0) as [-> | Ht0].
  { intros [= <-]. rewrite right_shift_spec by assumption.
    destruct (Z.eqb_spec u 0); [contradiction |].
    destruct (Z.ltb_spec u 0); [lia |].
    destruct (Z.gtb_spec u (numeric_limits.digits R)); [lia |].
    reflexivity. }
  destruct (Z.ltb_spec t 0); [discriminate |].
  destruct (Z.gtb_spec (t * 2 ^ u) (numeric_limits.max R)); [discriminate |].
  intros [= <-].
  pose proof (Z.pow_pos_nonneg 2 u ltac:(lia) ltac:(lia)) as Hp.
  assert (Rv : in_range R (t * 2 ^ u)).
  { pose proof (min_nonpos R). unfold in_range. nia. }
  assert (Hlt : u < width R).
  { destruct (Z_lt_ge_dec u (width R)) as [| Hge]; [assumption | exfalso].
    apply in_range_nonneg_iff in Rv; [| nia].
    pose proof (Z.pow_le_mono_r 2 (numeric_limits.digits R) u
                  ltac:(lia) ltac:(lia)). nia. }
  rewrite right_shift_spec by assumption.
  destruct (Z.eqb_spec u 0); [contradiction |].
  destruct (Z.ltb_spec u 0); [lia |].
  destruct (Z.gtb_spec u (numeric_limits.digits R)); [lia |].
  destruct (Z.eqb_spec (t * 2 ^ u) 0); [nia |].
  destruct (Z.ltb_spec (t * 2 ^ u) 0); [nia |].
  assert (Hwp : width R <= width (Native.promote R))
    by (destruct R; limits; lia).
  destruct (Z.leb_spec (width (Native.promote R)) u); [lia |].
  rewrite Z.shiftr_div_pow2, Z.div_mul by lia.
  rewrite cast_in_range; [reflexivity | | assumption].
  apply in_range_promote, Rt.
Qed.

Lemma shift_round_trip_witness :
  right_shift U32 U32 I32 (255 * 2 ^ 24) 24 = Some (Ok 255).
Proof.
  apply (shift_round_trip U32 U8 I32 255 24 (255 * 2 ^ 24)); closed.
Defined.

(** X18.  [right_shift] of a positive [t] by a count [0 < u <= digits R]
    smaller than the width of the promoted operand type is the cast into
    [R] of [t / 2 ^ u]: [Ok (t / 2 ^ u)] when that quotient is at most
    [R::max], whether [R] can represent [t] or not, and a
    [positive_overflow_error] otherwise. *)
Theorem right_shift_positive R T U t u :
  in_range T t -> in_range U u -> 0 < t ->
  0 < u <= numeric_limits.digits R -> u < width (Native.promote T) ->
  right_shift R T U t u = Some (cast R (Native.promote T) (t / 2 ^ u)) /\
  (t / 2 ^ u <= numeric_limits.max R ->
   right_shift R T U t u = Some (Ok (t / 2 ^ u))) /\
  (numeric_limits.max R < t / 2 ^ u ->
   exists m,
     right_shift R T U t u = Some (Err positive_overflow_error m)).
Proof.
  intros Ht Hu Hpos Hcount Hw.
  assert (E : right_shift R T U t u =
              Some (cast R (Native.promote T) (t / 2 ^ u))).
  { rewrite right_shift_spec by assumption.
    destruct (Z.eqb_spec u 0); [lia |].
    destruct (Z.ltb_spec u 0); [lia |].
    destruct (Z.gtb_spec u (numeric_limits.digits R)); [lia |].
    destruct (Z.eqb_spec t 0); [lia |].
    destruct (Z.ltb_spec t 0); [lia |].
    destruct (Z.leb_spec (width (Native.promote T)) u); [lia |].
    rewrite Z.shiftr_div_pow2 by lia. reflexivity. }
  pose proof (shiftr_bounds t u ltac:(lia) ltac:(lia)) as Hb.
  rewrite Z.shiftr_div_pow2 in Hb by lia.
  assert (HP : in_range (Native.promote T) (t / 2 ^ u)).
  { apply in_range_promote in Ht.
    pose proof (min_nonpos (Native.promote T)). unfold in_range in *. lia. }
  rewrite E. split; [reflexivity |]. split.
  - intros Hle. rewrite cast_in_range; [reflexivity | exact HP |].
    pose proof (min_nonpos R). unfold in_range. lia.
  - intros Hgt.
    destruct (cast_kind_above R (Native.promote T) _ HP Hgt) as [m ->].
    eauto.
Qed.

Lemma right_shift_positive_witness :
  right_shift U8 I32 I32 8176 8 = Some (Ok (8176 / 2 ^ 8)) /\
  exists m,
    right_shift U8 I32 I32 8176 1 = Some (Err positive_overflow_error m).
Proof.
  assert (R1 : in_range I32 8176) by (vm_compute; split; discriminate).
  assert (R2 : in_range I32 8) by (vm_compute; split; discriminate).
  assert (R3 : in_range I32 1) by (vm_compute; split; discriminate).
  split.
  - apply (right_shift_positive U8 I32 I32 8176 8 R1 R2); closed.
  - apply (right_shift_positive U8 I32 I32 8176 1 R1 R3); closed.
Defined.

(** X19.  The checks of [right_shift] bound the count by [digits R],
    not by the width of the operand: the native [t >> u] is reached with
    a count that the promoted type of [T] does not allow, which is
    undefined, exactly when [t > 0] and
    [width (promote T) <= u <= digits R]. *)
Theorem right_shift_undefined_iff R T U t u :
  in_range T t -> in_range U u ->
  (right_shift R T U t u = None <->
   0 < t /\ 0 < u /\
   width (Native.promote T) <= u <= numeric_limits.digits R).
Proof.
  intros Ht Hu. rewrite right_shift_spec by assumption.
  destruct (Z.eqb_spec u 0); [split; [discriminate | lia] |].
  destruct (Z.ltb_spec u 0); [split; [discriminate | lia] |].
  destruct (Z.gtb_spec u (numeric_limits.digits R));
    [split; [discriminate | lia] |].
  destruct (Z.eqb_spec t 0); [split; [discriminate | lia] |].
  destruct (Z.ltb_spec t 0); [split; [discriminate | lia] |].
  destruct (Z.leb_spec (width (Native.promote T)) u);
    split; try discriminate; intros; lia || reflexivity.
Qed.

Lemma right_shift_undefined_iff_witness :
  right_shift U64 U8 I32 1 40 = None.
Proof.
  apply (right_shift_undefined_iff U64 U8 I32 1 40); closed.
Defined.

(** ** Bitwise operations: what the width check admits *)

Lemma significant_bits_le_iff x w :
  0 <= x -> 0 <= w -> (utility.significant_bits x <= w <-> x < 2 ^ w).
Proof.
  intros Hx Hw. split.
  - intros H. pose proof (significant_bits_upper x Hx).
    pose proof (significant_bits_nonneg x).
    pose proof (Z.pow_le_mono_r 2 (utility.significant_bits x) w
                  ltac:(lia) H). lia.
  - intros H. unfold utility.significant_bits.
    destruct (Z.eqb_spec x 0); [lia |].
    rewrite Z.abs_eq by exact Hx.
    apply Z.log2_lt_pow2 in H; lia.
Qed.

Section WidthCheck.

Variables R T U : itype.
Variables t u : Z.
Hypothesis Ht : in_range T t.
Hypothesis Hu : in_range U u.
Hypothesis Ht0 : 0 <= t.
Hypothesis Hu0 : 0 <= u.

Lemma width_nonneg : 0 <= width R.
Proof. destruct R; limits; lia. Qed.

Lemma size_max_check :
  (Z.max (utility.significant_bits t) (utility.significant_bits u)
   >? width R) =
  negb ((t <? 2 ^ width R) && (u <? 2 ^ width R)).
Proof.
  pose proof (significant_bits_le_iff t (width R) Ht0 width_nonneg).
  pose proof (significant_bits_le_iff u (width R) Hu0 width_nonneg).
  destruct (Z.gtb_spec
              (Z.max (utility.significant_bits t) (utility.significant_bits u))
              (width R));
    destruct (Z.ltb_spec t (2 ^ width R));
    destruct (Z.ltb_spec u (2 ^ width R)); try reflexivity; lia.
Qed.

Lemma size_min_check :
  (Z.min (utility.significant_bits t) (utility.significant_bits u)
   >? width R) =
  negb ((t <? 2 ^ width R) || (u <? 2 ^ width R)).
Proof.
  pose proof (significant_bits_le_iff t (width R) Ht0 width_nonneg).
  pose proof (significant_bits_le_iff u (width R) Hu0 width_nonneg).
  destruct (Z.gtb_spec
              (Z.min (utility.significant_bits t) (utility.significant_bits u))
              (width R));
    destruct (Z.ltb_spec t (2 ^ width R));
    destruct (Z.ltb_spec u (2 ^ width R)); try reflexivity; lia.
Qed.

End WidthCheck.

(** X20.  [bitwise_or] and [bitwise_xor] on non-negative operands check
    the width of [R]: they are [Ok], of the exact value converted to [R],
    when both operands are below [2 ^ width R], and the
    [positive_overflow_error] when one of them is not.  For an unsigned
    [R] this means: [Ok] of the exact value as soon as [R] can represent
    both operands. *)
Theorem bitwise_or_xor_width_check R T U t u :
  in_range T t -> in_range U u -> 0 <= t -> 0 <= u ->
  (t < 2 ^ width R /\ u < 2 ^ width R ->
   bitwise_or R T U t u = Some (Ok (static_cast R (Z.lor t u))) /\
   bitwise_xor R T U t u = Some (Ok (static_cast R (Z.lxor t u)))) /\
  (2 ^ width R <= t \/ 2 ^ width R <= u ->
   bitwise_or R T U t u =
   Some (Err positive_overflow_error
           "result type too small to hold bitwise or") /\
   bitwise_xor R T U t u =
   Some (Err positive_overflow_error
           "result type too small to hold bitwise or")) /\
  (is_signed R = false -> in_range R t -> in_range R u ->
   bitwise_or R T U t u = Some (Ok (Z.lor t u)) /\
   bitwise_xor R T U t u = Some (Ok (Z.lxor t u))).
Proof.
  intros Ht Hu Ht0 Hu0.
  assert (A : t < 2 ^ width R /\ u < 2 ^ width R ->
              bitwise_or R T U t u =
              Some (Ok (static_cast R (Z.lor t u))) /\
              bitwise_xor R T U t u =
              Some (Ok (static_cast R (Z.lxor t u)))).
  { intros [H1 H2].
    rewrite bitwise_or_spec, bitwise_xor_spec by assumption.
    rewrite size_max_check by assumption.
    destruct (Z.ltb_spec t (2 ^ width R)); [| lia].
    destruct (Z.ltb_spec u (2 ^ width R)); [| lia]. auto. }
  split; [exact A |]. split.
  - intros H.
    rewrite bitwise_or_spec, bitwise_xor_spec by assumption.
    rewrite size_max_check by assumption.
    destruct (Z.ltb_spec t (2 ^ width R));
      destruct (Z.ltb_spec u (2 ^ width R)); auto; lia.
  - intros ER Rt Ru.
    apply in_range_nonneg_iff in Rt, Ru; try assumption.
    rewrite (digits_unsigned R ER) in Rt, Ru.
    destruct (A (conj Rt Ru)) as [E1 E2].
    pose proof (bitwise_or_ok R T U t u Ht Hu Ht0 Hu0 (or_introl ER) _ E1)
      as V1.
    pose proof (bitwise_xor_ok R T U t u Ht Hu Ht0 Hu0 (or_introl ER) _ E2)
      as V2.
    rewrite E1, E2, V1, V2. auto.
Qed.

Lemma bitwise_or_xor_width_check_witness :
  bitwise_or U8 I32 I32 240 15 = Some (Ok (Z.lor 240 15)) /\
  bitwise_xor U8 I32 I32 256 1 =
  Some (Err positive_overflow_error
          "result type too small to hold bitwise or").
Proof.
  assert (R1 : in_range I32 240) by closed.
  assert (R2 : in_range I32 15) by closed.
  assert (R3 : in_range I32 256) by closed.
  assert (R4 : in_range I32 1) by closed.
  split.
  - apply (proj2 (proj2 (bitwise_or_xor_width_check U8 I32 I32 240 15
                           R1 R2 ltac:(closed) ltac:(closed)))); closed.
  - apply (proj1 (proj2 (bitwise_or_xor_width_check U8 I32 I32 256 1
                           R3 R4 ltac:(closed) ltac:(closed)))).
    left. closed.
Defined.

(** X21.  [bitwise_and] on non-negative operands takes the smaller of
    the two operand sizes: it is [Ok] as soon as one operand is below
    [2 ^ width R], and the [positive_overflow_error] only when both are
    not.  For an unsigned [R] it is [Ok (t & u)], exactly, as soon as [R]
    can represent one operand. *)
Theorem bitwise_and_width_check R T U t u :
  in_range T t -> in_range U u -> 0 <= t -> 0 <= u ->
  (t < 2 ^ width R \/ u < 2 ^ width R ->
   bitwise_and R T U t u = Some (Ok (static_cast R (Z.land t u)))) /\
  (2 ^ width R <= t /\ 2 ^ width R <= u ->
   bitwise_and R T U t u =
   Some (Err positive_overflow_error
           "result type too small to hold bitwise or")) /\
  (is_signed R = false -> in_range R t \/ in_range R u ->
   bitwise_and R T U t u = Some (Ok (Z.land t u))).
Proof.
  intros Ht Hu Ht0 Hu0.
  rewrite bitwise_and_spec by assumption.
  rewrite size_min_check by assumption.
  split; [| split].
  - intros H.
    destruct (Z.ltb_spec t (2 ^ width R));
      destruct (Z.ltb_spec u (2 ^ width R)); auto; lia.
  - intros [H1 H2].
    destruct (Z.ltb_spec t (2 ^ width R)); [lia |].
    destruct (Z.ltb_spec u (2 ^ width R)); [lia |]. reflexivity.
  - intros ER H.
    assert (H' : t < 2 ^ width R \/ u < 2 ^ width R).
    { destruct H as [H | H]; [left | right];
        (apply in_range_nonneg_iff in H; [| assumption]);
        rewrite (digits_unsigned R ER) in H; exact H. }
    pose proof (width_nonneg R).
    rewrite static_cast_id.
    + destruct (Z.ltb_spec t (2 ^ width R));
        destruct (Z.ltb_spec u (2 ^ width R)); auto; lia.
    + apply in_range_nonneg_iff; [apply Z.land_nonneg; auto |].
      rewrite (digits_unsigned R ER). apply land_lt_pow2; assumption.
Qed.

Lemma bitwise_and_width_check_witness :
  bitwise_and U8 I32 I32 65535 15 = Some (Ok (Z.land 65535 15)) /\
  bitwise_and U8 I32 I32 256 256 =
  Some (Err positive_overflow_error
          "result type too small to hold bitwise or").
Proof.
  assert (R1 : in_range I32 65535) by closed.
  assert (R2 : in_range I32 15) by closed.
  assert (R3 : in_range I32 256) by closed.
  split.
  - apply (proj2 (proj2 (bitwise_and_width_check U8 I32 I32 65535 15
                           R1 R2 ltac:(closed) ltac:(closed))));
      [reflexivity | right; closed].
  - apply (proj1 (proj2 (bitwise_and_width_check U8 I32 I32 256 256
                           R3 R3 ltac:(closed) ltac:(closed)))). closed.
Defined.

(** ** Comparisons *)

Lemma common_type_same R : Native.common_type R R = Native.promote R.
Proof. destruct R; reflexivity. Qed.

Lemma compare_same_type f R t u :
  in_range R t -> in_range R u ->
  Native.compare f R R (static_cast R t) (static_cast R u) = f t u.
Proof.
  intros Rt Ru. rewrite !static_cast_id by assumption.
  apply compare_exact; rewrite common_type_same;
    apply in_range_promote; assumption.
Qed.

(** X22.  [less_than], [greater_than] and [equal] compare the values of
    the operands as integers, whatever the signedness of [T] and [U],
    when [R] can represent both operands; they return a boolean only
    then. *)
Theorem comparisons_exact R T U t u :
  in_range T t -> in_range U u ->
  (in_range R t -> in_range R u ->
   less_than R T U t u = OkB (t <? u) /\
   greater_than R T U t u = OkB (t >? u) /\
   equal R T U t u = OkB (t =? u)) /\
  (forall b,
     less_than R T U t u = OkB b \/
     greater_than R T U t u = OkB b \/
     equal R T U t u = OkB b ->
     in_range R t /\ in_range R u).
Proof.
  intros Ht Hu. split.
  - intros Rt Ru. unfold less_than, greater_than, equal.
    rewrite !cast_in_range by assumption.
    unfold Native.lt, Native.gt, Native.eq.
    rewrite !compare_same_type by assumption. auto.
  - intros b H. unfold less_than, greater_than, equal in H.
    destruct (cast R T t) as [tv |] eqn:Et.
    2:{ destruct H as [H | [H | H]]; discriminate H. }
    destruct (cast R U u) as [uv |] eqn:Eu.
    2:{ destruct H as [H | [H | H]]; discriminate H. }
    split; [apply (cast_ok_inv R T t tv Ht Et)
           | apply (cast_ok_inv R U u uv Hu Eu)].
Qed.

Lemma comparisons_exact_witness :
  less_than I64 I32 U32 (-1) 1 = OkB (-1 <? 1) /\
  equal I64 I32 U32 (-1) 4294967295 = OkB (-1 =? 4294967295).
Proof.
  assert (R1 : in_range I32 (-1)) by closed.
  assert (R2 : in_range U32 1) by closed.
  assert (R3 : in_range U32 4294967295) by closed.
  split.
  - apply (proj1 (comparisons_exact I64 I32 U32 (-1) 1 R1 R2)); closed.
  - apply (proj1 (comparisons_exact I64 I32 U32 (-1) 4294967295 R1 R3));
      closed.
Defined.

(** the native operators on the same operands answer otherwise *)
Example native_mixed_comparison :
  Native.lt I32 U32 (-1) 1 = false /\
  Native.eq I32 U32 (-1) 4294967295 = true.
Proof. split; reflexivity. Qed.

(** X23.  What the shifts reject before they shift: a negative count is
    an [implementation_defined_behavior] error for both; with a count
    [0 < u <= digits R], a negative [t] is an [undefined_behavior] error
    of [left_shift] and an [implementation_defined_behavior] error of
    [right_shift]; a zero [t] gives [Ok 0] for every count
    [0 <= u <= digits R]. *)
Theorem shift_rejections R T U t u :
  in_range T t -> in_range U u ->
  (u < 0 ->
   left_shift R T U t u =
   Some (Err implementation_defined_behavior
           "shifting negative amount is implementation defined behavior") /\
   right_shift R T U t u =
   Some (Err implementation_defined_behavior
           "shifting negative amount is implementation defined behavior")) /\
  (0 < u <= numeric_limits.digits R -> t < 0 ->
   left_shift R T U t u =
   Some (Err undefined_behavior
           "shifting a negative value is undefined behavior") /\
   right_shift R T U t u =
   Some (Err implementation_defined_behavior
           "shifting a negative value is implementation defined behavior")) /\
  (0 <= u <= numeric_limits.digits R -> t = 0 ->
   left_shift R T U t u = Some (Ok 0) /\
   right_shift R T U t u = Some (Ok 0)).
Proof.
  intros Ht Hu. rewrite left_shift_spec, right_shift_spec by assumption.
  split; [| split].
  - intros H. destruct (Z.eqb_spec u 0); [lia |].
    destruct (Z.ltb_spec u 0); [auto | lia].
  - intros H Hneg. destruct (Z.eqb_spec u 0); [lia |].
    destruct (Z.ltb_spec u 0); [lia |].
    destruct (Z.gtb_spec u (numeric_limits.digits R)); [lia |].
    destruct (Z.eqb_spec t 0); [lia |].
    destruct (Z.ltb_spec t 0); [auto | lia].
  - intros H ->. rewrite (static_cast_id R 0) by apply in_range_zero.
    destruct (Z.eqb_spec u 0); [auto |].
    destruct (Z.ltb_spec u 0); [lia |].
    destruct (Z.gtb_spec u (numeric_limits.digits R)); [lia | auto].
Qed.

Lemma shift_rejections_witness :
  left_shift I8 I32 I32 1 (-1) =
  Some (Err implementation_defined_behavior
          "shifting negative amount is implementation defined behavior") /\
  left_shift I8 I32 I32 (-1) 1 =
  Some (Err undefined_behavior
          "shifting a negative value is undefined behavior") /\
  right_shift I8 I32 I32 (-4) 1 =
  Some (Err implementation_defined_behavior
          "shifting a negative value is implementation defined behavior").
Proof.
  assert (R1 : in_range I32 1) by closed.
  assert (R2 : in_range I32 (-1)) by closed.
  assert (R3 : in_range I32 (-4)) by closed.
  split; [| split].
  - apply (proj1 (shift_rejections I8 I32 I32 1 (-1) R1 R2)). reflexivity.
  - apply (proj1 (proj2 (shift_rejections I8 I32 I32 (-1) 1 R2 R1)));
      closed.
  - apply (proj1 (proj2 (shift_rejections I8 I32 I32 (-4) 1 R3 R1)));
      closed.
Defined.
